(** * hillel_homework: a number filter/observer pipeline and a switchable logger

    Shallow embedding of [ConsoleApplication6.cpp] (module [Pipeline]) and
    of [main.cpp] (module [LoggerDemo]).

    Conventions of the embedding:
    - a C++ [int] is a [Z] inside [INT_MIN .. INT_MAX];
    - [std::string] is [string]; a text file is the string of its bytes;
    - a thrown exception is the [Throw] case of [result];
    - what a function writes to [cout], [cerr] or a file, and the virtual
      calls it makes, are the events of a trace it returns. *)

From Stdlib Require Import ZArith Zquot String Ascii List Bool DecimalString.
From Stdlib Require DecimalPos.
From stdpp Require Import base tactics option list strings gmap.

#[local] Open Scope string_scope.
#[local] Open Scope list_scope.
#[local] Open Scope Z_scope.

#[local] Arguments String.append !_ _ / : simpl nomatch.

(** ** Shared C++ vocabulary *)

Definition INT_MIN : Z := -2147483648.
Definition INT_MAX : Z := 2147483647.

Definition is_int (v : Z) : Prop := INT_MIN <= v <= INT_MAX.

Definition in_int_range (v : Z) : bool := (INT_MIN <=? v) && (v <=? INT_MAX).

(** The line feed written by ["\n"] and by [endl]. *)
Definition nl : string := String (ascii_of_nat 10) EmptyString.

(** [operator<<] on an integer: its decimal representation. *)
Definition to_string (v : Z) : string := NilEmpty.string_of_int (Z.to_int v).

(** [isspace] in the "C" locale: space, \t, \n, \v, \f, \r. *)
Definition isspace (c : ascii) : bool :=
  match nat_of_ascii c with
  | 32%nat | 9%nat | 10%nat | 11%nat | 12%nat | 13%nat => true
  | _ => false
  end.

(** The value of a decimal digit character, if it is one. *)
Definition digit_value (c : ascii) : option Z :=
  let n := Z.of_nat (nat_of_ascii c) in
  if (48 <=? n) && (n <=? 57) then Some (n - 48) else None.

Definition isdigit (c : ascii) : bool :=
  match digit_value c with Some _ => true | None => false end.

(** The exception classes of [<stdexcept>] the programs throw and catch. *)
Inductive exception_class : Set :=
| invalid_argument
| out_of_range
| runtime_error.

Record exception : Set := mk_exception {
  exn_class : exception_class;
  what : string
}.

Inductive result (A : Type) : Type :=
| Ok (a : A)
| Throw (e : exception).
Arguments Ok {A} a.
Arguments Throw {A} e.

(** ** [std::stoi (str)], base 10, no [pos] argument

    [strtol] skips leading white space, takes an optional sign and then
    the longest run of decimal digits; whatever follows the digits is
    ignored. No digit at all is [invalid_argument]; a value that does not
    fit an [int] is [out_of_range]. *)

Inductive stoi_result : Set :=
| stoi_ok (v : Z)
| stoi_invalid_argument
| stoi_out_of_range.

Fixpoint skip_space (s : string) : string :=
  match s with
  | String c s' => if isspace c then skip_space s' else s
  | EmptyString => s
  end.

(** Consumes the leading digits of [s], accumulating their value in
    [acc]; [seen] tells whether a digit was consumed. *)
Fixpoint scan_digits (s : string) (acc : Z) (seen : bool) : Z * bool :=
  match s with
  | String c s' =>
      match digit_value c with
      | Some d => scan_digits s' (acc * 10 + d) true
      | None => (acc, seen)
      end
  | EmptyString => (acc, seen)
  end.

Definition split_sign (s : string) : bool * string :=
  match s with
  | String "-" s' => (true, s')
  | String "+" s' => (false, s')
  | _ => (false, s)
  end.

Definition stoi (str : string) : stoi_result :=
  let '(negative, digits) := split_sign (skip_space str) in
  match scan_digits digits 0 false with
  | (_, false) => stoi_invalid_argument
  | (magnitude, true) =>
      let v := if negative then - magnitude else magnitude in
      if in_int_range v then stoi_ok v else stoi_out_of_range
  end.

(** ** [ConsoleApplication6.cpp]: the number pipeline *)

Module Pipeline.

(** Text written to one of the two streams. *)
Inductive Output : Set :=
| Cout (text : string)
| Cerr (text : string).

(** What a run does: it prints, and it makes virtual calls on the
    observer stored at an address. *)
Inductive Event : Set :=
| Print (o : Output)
| Call_on_number (observer : nat) (number : Z)
| Call_on_finished (observer : nat).

(** A path either cannot be opened or has contents. *)
Definition FileSystem : Type := string -> option string.

(** *** Tokenizing *)

(** [while (getline(file, line))]: [cur] is the line being extracted.
    A final line without line feed is returned when it is not empty. *)
Fixpoint getlines_from (s : string) (cur : string) : list string :=
  match s with
  | String c s' =>
      if Ascii.eqb c (ascii_of_nat 10) then cur :: getlines_from s' EmptyString
      else getlines_from s' (cur +:+ String c EmptyString)
  | EmptyString =>
      match cur with EmptyString => [] | _ => [cur] end
  end.

Definition getlines (content : string) : list string :=
  getlines_from content EmptyString.

(** [while (ss >> number_str)]: [cur] is the token being extracted. *)
Fixpoint extract_from (s : string) (cur : string) : list string :=
  match s with
  | String c s' =>
      if isspace c then
        match cur with
        | EmptyString => extract_from s' EmptyString
        | _ => cur :: extract_from s' EmptyString
        end
      else extract_from s' (cur +:+ String c EmptyString)
  | EmptyString =>
      match cur with EmptyString => [] | _ => [cur] end
  end.

Definition extract (line : string) : list string :=
  extract_from line EmptyString.

(** *** [INumberReader] and [FileReader] *)

Class INumberReader (R : Type) : Type :=
  read : R -> FileSystem -> string -> result (list Z) * list Output.

Definition invalid_number_warning (number_str : string) : Output :=
  Cerr ("Warning: Invalid number in file: " +:+ number_str +:+ ". Skipping." +:+ nl).

Definition out_of_range_warning (number_str : string) : Output :=
  Cerr ("Warning: Number out of range in file: " +:+ number_str +:+ ". Skipping." +:+ nl).

(** The body of the inner loop: [numbers] and the trace so far. *)
Definition read_token (st : list Z * list Output) (number_str : string)
  : list Z * list Output :=
  let '(numbers, out) := st in
  match stoi number_str with
  | stoi_ok v => (numbers ++ [v], out)
  | stoi_invalid_argument => (numbers, out ++ [invalid_number_warning number_str])
  | stoi_out_of_range => (numbers, out ++ [out_of_range_warning number_str])
  end.

(** The body of the outer loop. *)
Definition read_line (st : list Z * list Output) (line : string)
  : list Z * list Output :=
  fold_left read_token (extract line) st.

Inductive FileReader : Set := mk_FileReader.

Definition FileReader_read (fs : FileSystem) (filename : string)
  : result (list Z) * list Output :=
  match fs filename with
  | None =>
      (Throw (mk_exception runtime_error ("Could not open file: " +:+ filename)), [])
  | Some content =>
      let '(numbers, out) := fold_left read_line (getlines content) ([], []) in
      (Ok numbers, out)
  end.

#[export] Instance FileReader_INumberReader : INumberReader FileReader :=
  fun _ => FileReader_read.

(** *** [INumberFilter] and its three implementations *)

Class INumberFilter (F : Type) : Type :=
  keep : F -> Z -> bool.

(** The objects a [unique_ptr<INumberFilter>] of the program points to. *)
Inductive NumberFilter : Set :=
| EvenNumberFilter
| OddNumberFilter
| GreaterThanFilter (threshold_ : Z).

(** [%] truncates towards zero: [Z.rem]. *)
Definition EvenNumberFilter_keep (number : Z) : bool :=
  Z.rem number 2 =? 0.

Definition OddNumberFilter_keep (number : Z) : bool :=
  negb (Z.rem number 2 =? 0).

Definition GreaterThanFilter_keep (threshold_ number : Z) : bool :=
  number >? threshold_.

#[export] Instance NumberFilter_INumberFilter : INumberFilter NumberFilter :=
  fun f number =>
    match f with
    | EvenNumberFilter => EvenNumberFilter_keep number
    | OddNumberFilter => OddNumberFilter_keep number
    | GreaterThanFilter threshold_ => GreaterThanFilter_keep threshold_ number
    end.

(** *** [FilterFactory] *)

Abbreviation FilterCreator := (string -> result NumberFilter) (only parsing).

Record FilterFactory : Type := mk_FilterFactory {
  creators_ : gmap string FilterCreator
}.

Definition registerFilter (filterName : string) (creator : FilterCreator)
  (factory : FilterFactory) : FilterFactory :=
  mk_FilterFactory (<[filterName := creator]> (creators_ factory)).

Definition create_GT : FilterCreator := fun arg =>
  match stoi arg with
  | stoi_ok threshold => Ok (GreaterThanFilter threshold)
  | stoi_invalid_argument =>
      Throw (mk_exception invalid_argument ("Invalid argument for GT filter: " +:+ arg))
  | stoi_out_of_range =>
      Throw (mk_exception out_of_range ("Argument out of range for GT filter: " +:+ arg))
  end.

Definition new_FilterFactory : FilterFactory :=
  registerFilter "GT" create_GT
    (registerFilter "ODD" (fun _ => Ok OddNumberFilter)
       (registerFilter "EVEN" (fun _ => Ok EvenNumberFilter)
          (mk_FilterFactory ∅))).

Definition createFilter (factory : FilterFactory) (filterType filterArg : string)
  : result NumberFilter :=
  match creators_ factory !! filterType with
  | Some creator => creator filterArg
  | None => Throw (mk_exception invalid_argument ("Unknown filter type: " +:+ filterType))
  end.

(** *** [INumberObserver] and its two implementations

    Neither implementation throws, so a callback is a function from the
    object to the object it leaves and what it prints. *)

Class INumberObserver (O : Type) : Type := {
  on_number : O -> Z -> O * list Output;
  on_finished : O -> O * list Output
}.

Inductive NumberObserver : Set :=
| PrintObserver
| CountObserver (count_ : Z).

(** [count_++] on an [int]. The increment of [INT_MAX] is undefined in
    C++; it is given the wrap-around of two's complement here. *)
Definition int_succ (v : Z) : Z :=
  if v =? INT_MAX then INT_MIN else v + 1.

#[export] Instance NumberObserver_INumberObserver : INumberObserver NumberObserver := {
  on_number o number :=
    match o with
    | PrintObserver =>
        (PrintObserver, [Cout ("Read and filtered number: " +:+ to_string number +:+ nl)])
    | CountObserver count_ => (CountObserver (int_succ count_), [])
    end;
  on_finished o :=
    match o with
    | PrintObserver => (PrintObserver, [Cout ("Number processing finished." +:+ nl)])
    | CountObserver count_ =>
        (o, [Cout ("Total number of filtered numbers: " +:+ to_string count_ +:+ nl)])
    end
}.

(** *** [NumberProcessor]

    [observers_] holds pointers: addresses in a store of observer
    objects, which the callbacks update in place. A pointer to no object
    is undefined behaviour: [None]. *)

Section NumberProcessor.
Context {R F O : Type}.
Context `{!INumberReader R, !INumberFilter F, !INumberObserver O}.

Record NumberProcessor : Type := mk_NumberProcessor {
  reader_ : R;
  filter_ : F;
  observers_ : list nat
}.

(** One virtual call on each registered observer, in order. *)
Fixpoint notify (call : O -> O * list Output) (mark : nat -> Event)
  (observers : list nat) (store : gmap nat O)
  : option (gmap nat O * list Event) :=
  match observers with
  | [] => Some (store, [])
  | observer :: rest =>
      match store !! observer with
      | None => None
      | Some o =>
          let '(o', out) := call o in
          match notify call mark rest (<[observer := o']> store) with
          | None => None
          | Some (store', trace) =>
              Some (store', mark observer :: map Print out ++ trace)
          end
      end
  end.

Definition notifyObservers (np : NumberProcessor) (number : Z)
  : gmap nat O -> option (gmap nat O * list Event) :=
  notify (fun o => on_number o number) (fun p => Call_on_number p number)
    (observers_ np).

Definition notifyFinished (np : NumberProcessor)
  : gmap nat O -> option (gmap nat O * list Event) :=
  notify on_finished Call_on_finished (observers_ np).

(** [for (int number : numbers) if (filter_.keep(number)) ...] *)
Fixpoint process (np : NumberProcessor) (numbers : list Z) (store : gmap nat O)
  : option (gmap nat O * list Event) :=
  match numbers with
  | [] => Some (store, [])
  | number :: rest =>
      if keep (filter_ np) number then
        match notifyObservers np number store with
        | None => None
        | Some (store', trace) =>
            match process np rest store' with
            | None => None
            | Some (store'', trace') => Some (store'', trace ++ trace')
            end
        end
      else process np rest store
  end.

(** [run] catches [runtime_error] only; any other exception of the
    reader leaves [run]. *)
Definition run (np : NumberProcessor) (fs : FileSystem) (filename : string)
  (store : gmap nat O) : option (result unit * gmap nat O * list Event) :=
  match read (reader_ np) fs filename with
  | (Ok numbers, out) =>
      match process np numbers store with
      | None => None
      | Some (store', trace) =>
          match notifyFinished np store' with
          | None => None
          | Some (store'', trace') =>
              Some (Ok tt, store'', map Print out ++ trace ++ trace')
          end
      end
  | (Throw e, out) =>
      match exn_class e with
      | runtime_error =>
          Some (Ok tt, store,
                map Print out
                ++ [Print (Cerr ("Error during processing: " +:+ what e +:+ nl))])
      | _ => Some (Throw e, store, map Print out)
      end
  end.
End NumberProcessor.

(** The virtual calls of a trace, without what was printed. *)
Definition is_call (e : Event) : bool :=
  match e with Print _ => false | _ => true end.

Definition calls (trace : list Event) : list Event := List.filter is_call trace.

Arguments NumberProcessor : clear implicits.

(** *** [main] *)

Definition starts_with (s prefix : string) : bool := String.prefix prefix s.

Fixpoint string_drop (n : nat) (s : string) : string :=
  match n, s with
  | O, _ => s
  | S n', String _ s' => string_drop n' s'
  | S _, EmptyString => EmptyString
  end.

(** [s.substr(pos)] throws when [pos] is past the end. *)
Definition substr (s : string) (pos : nat) : result string :=
  if (String.length s <? pos)%nat
  then Throw (mk_exception out_of_range "basic_string::substr")
  else Ok (string_drop pos s).

(** How a process ends. *)
Inductive Termination : Type :=
| Exit (code : Z)
| Terminate (uncaught : exception)
| Undefined.

Definition usage (program : string) : list Event :=
  [Print (Cerr ("Usage: " +:+ program +:+ " <filter> <file>" +:+ nl));
   Print (Cerr ("Available filters: EVEN, ODD, GT<n>" +:+ nl))].

(** The split of [argv[1]] into [filter_type] and [filter_value]. *)
Definition split_filter_arg (filter_arg : string) : result (string * string) :=
  if starts_with filter_arg "GT" then
    match substr filter_arg 2 with
    | Ok filter_value => Ok ("GT", filter_value)
    | Throw e => Throw e
    end
  else Ok (filter_arg, "").

(** [print_observer] and [count_observer], the locals of [main]. *)
Definition print_observer : nat := 0%nat.
Definition count_observer : nat := 1%nat.
Definition main_store : gmap nat NumberObserver :=
  <[count_observer := CountObserver 0]> (<[print_observer := PrintObserver]> ∅).

(** [argv] holds the program name and the arguments: [argc = length argv]. *)
Definition main (fs : FileSystem) (argv : list string) : Termination * list Event :=
  match argv with
  | program :: filter_arg :: filename :: _ =>
      match split_filter_arg filter_arg with
      | Throw e => (Terminate e, [])
      | Ok (filter_type, filter_value) =>
          match createFilter new_FilterFactory filter_type filter_value with
          | Throw e =>
              match exn_class e with
              | invalid_argument | out_of_range =>
                  (Exit 1, [Print (Cerr ("Error: " +:+ what e +:+ nl))])
              | runtime_error => (Terminate e, [])
              end
          | Ok filter =>
              let processor :=
                mk_NumberProcessor mk_FileReader filter [print_observer; count_observer] in
              match run processor fs filename main_store with
              | None => (Undefined, [])
              | Some (Throw e, _, out) => (Terminate e, out)
              | Some (Ok _, _, out) => (Exit 0, out)
              end
          end
      end
  | _ => (Exit 1, usage (nth 0 argv ""))
  end.

End Pipeline.

(** ** [main.cpp]: the logger with switchable sinks *)

Module LoggerDemo.

(** Text on the two streams, the life of the sink objects at their
    addresses, the virtual [write] calls, and what reaches [app.log]. *)
Inductive Event : Type :=
| Cout (text : string)
| Cerr (text : string)
| Construct (address : nat)
| Destroy (address : nat)
| Call_write (address : nat) (msg : string)
| Append_app_log (text : string).

(** What the file system and the stream library answer at the time of
    a call: whether [app.log] can be opened for appending; whether a
    write to it succeeds; and, for a write that does not succeed, which
    part of the text handed over has reached the file all the same and
    which part stays in the buffer of the stream ([on_failure]): the
    program decides neither. *)
Record Environment : Set := mk_Environment {
  can_open : bool;
  can_write : bool;
  on_failure : string -> string * string
}.

(** *** The sinks *)

(** [FileSink] carries [file_open_], the fail state of [file_], and the
    text that [file_] still holds in its buffer. *)
Inductive LogSink : Set :=
| ConsoleSink
| FileSink (file_open_ : bool) (file_failed : bool) (pending : string)
| NullSink.

Definition new_FileSink (env : Environment) : LogSink * list Event :=
  if can_open env then (FileSink true false "", [])
  else (FileSink false true "",
        [Cerr ("Error opening file app.log for writing." +:+ nl)]).

(** Text that reaches [app.log], if there is any. *)
Definition append_app_log (text : string) : list Event :=
  match text with
  | EmptyString => []
  | _ => [Append_app_log text]
  end.

(** The stream hands [text] to the file: whether that succeeded, what
    stays in the buffer, and what reached the file. *)
Definition to_file (env : Environment) (text : string)
  : bool * string * list Event :=
  if can_write env then (true, "", append_app_log text)
  else
    let '(written, kept) := on_failure env text in
    (false, kept, append_app_log written).

(** [sink->write(msg)], by the dynamic type of the sink. [file_ << msg
    << endl] on a good stream hands the buffer and the line to the
    file; a stream in fail state ignores what is inserted, keeps its
    buffer and stays in fail state. *)
Definition write (env : Environment) (sink : LogSink) (msg : string)
  : LogSink * list Event :=
  match sink with
  | ConsoleSink => (ConsoleSink, [Cout (msg +:+ nl)])
  | FileSink true false pending =>
      match to_file env (pending +:+ msg +:+ nl) with
      | (true, kept, out) => (FileSink true false kept, out)
      | (false, kept, out) =>
          (FileSink true true kept,
           out ++ [Cerr ("Error writing to file app.log." +:+ nl)])
      end
  | FileSink true true pending =>
      (FileSink true true pending, [Cerr ("Error writing to file app.log." +:+ nl)])
  | FileSink false file_failed pending =>
      (FileSink false file_failed pending,
       [Cerr ("Error: File app.log is not open." +:+ nl)])
  | NullSink => (NullSink, [])
  end.

(** The destructor of a sink. That of [FileSink] closes [file_], which
    hands what the buffer still holds to the file, whatever the state
    of the stream. *)
Definition delete_sink (env : Environment) (sink : LogSink) : list Event :=
  match sink with
  | FileSink true _ (String c pending) =>
      snd (to_file env (String c pending))
  | _ => []
  end.

(** *** [SinkType] and [Logger] *)

(** An [enum class] over [int]: a value of the type is any [int], three
    of which are named. *)
Definition SinkType : Set := Z.
Definition CONSOLE : SinkType := 0.
Definition FILE : SinkType := 1.
Definition NONE : SinkType := 2.

Record source_location : Set := mk_source_location {
  file_name : string;
  function_name : string;
  line : N
}.

Record Logger : Set := mk_Logger {
  sink_ : option nat;
  current_sink_type_ : SinkType
}.

(** The logger and the store its [unique_ptr] points into. *)
Record State : Type := mk_State {
  logger : Logger;
  heap : gmap nat LogSink
}.

(** [sink_ = make_unique<...>()] once the new object [sink] is built:
    it gets a free address, [sink_] takes it, and the object [sink_]
    owned until then is deleted. Deleting what is not in the store is
    undefined behaviour: [None]. *)
Definition assign_sink (env : Environment) (sink : LogSink) (type : SinkType)
  (st : State) : option (State * list Event) :=
  let address := fresh (dom (heap st)) in
  let heap' := <[address := sink]> (heap st) in
  match sink_ (logger st) with
  | None =>
      Some (mk_State (mk_Logger (Some address) type) heap', [Construct address])
  | Some old =>
      match heap st !! old with
      | None => None
      | Some previous =>
          Some (mk_State (mk_Logger (Some address) type) (delete old heap'),
                [Construct address; Destroy old] ++ delete_sink env previous)
      end
  end.

(** The constructor: [sink_(make_unique<ConsoleSink>())], and the
    default member initializer of [current_sink_type_]. *)
Definition new_Logger : State * list Event :=
  let address := fresh (dom (∅ : gmap nat LogSink)) in
  (mk_State (mk_Logger (Some address) CONSOLE) {[address := ConsoleSink]},
   [Construct address]).

Definition set_sink (env : Environment) (type : SinkType) (st : State)
  : option (State * list Event) :=
  if type =? CONSOLE then
    match assign_sink env ConsoleSink CONSOLE st with
    | None => None
    | Some (st', out) =>
        Some (st', out ++ [Cout ("Logging redirected to console." +:+ nl)])
    end
  else if type =? FILE then
    let '(sink, built) := new_FileSink env in
    match assign_sink env sink FILE st with
    | None => None
    | Some (st', out) =>
        Some (st', built ++ out ++ [Cout ("Logging redirected to file app.log." +:+ nl)])
    end
  else if type =? NONE then
    match assign_sink env NullSink NONE st with
    | None => None
    | Some (st', out) => Some (st', out ++ [Cout ("Logging disabled." +:+ nl)])
    end
  else Some (st, [Cerr ("Unknown sink type. Previous sink remains." +:+ nl)]).

Definition formatLogMessage (msg : string) (location : source_location) : string :=
  "[" +:+ file_name location +:+ ":" +:+ function_name location +:+ ":"
  +:+ to_string (Z.of_N (line location)) +:+ "] " +:+ msg.

Definition sink_not_set : Event := Cerr ("Error: Sink not set." +:+ nl).

(** A [sink_] that points to no object is undefined behaviour: [None]. *)
Definition log (env : Environment) (msg : string) (location : source_location)
  (st : State) : option (State * list Event) :=
  match sink_ (logger st) with
  | Some address =>
      match heap st !! address with
      | None => None
      | Some sink =>
          let text := formatLogMessage msg location in
          let '(sink', out) := write env sink text in
          Some (mk_State (logger st) (<[address := sink']> (heap st)),
                Call_write address text :: out)
      end
  | None => Some (st, [sink_not_set])
  end.

Definition get_current_sink_type (st : State) : SinkType :=
  current_sink_type_ (logger st).

(** The calls a client can make on the logger once it is constructed. *)
Inductive Operation : Type :=
| Op_set_sink (env : Environment) (type : SinkType)
| Op_log (env : Environment) (msg : string) (location : source_location).

Definition step (op : Operation) (st : State) : option (State * list Event) :=
  match op with
  | Op_set_sink env type => set_sink env type st
  | Op_log env msg location => log env msg location st
  end.

(** A sequence of calls, from [st]; the trace is the concatenation. *)
Fixpoint steps (ops : list Operation) (st : State) : option (State * list Event) :=
  match ops with
  | [] => Some (st, [])
  | op :: rest =>
      match step op st with
      | None => None
      | Some (st', out) =>
          match steps rest st' with
          | None => None
          | Some (st'', out') => Some (st'', out ++ out')
          end
      end
  end.

(** The states of a logger: the constructed one, and what a call makes
    of one of them. *)
Inductive reachable : State -> Prop :=
| reachable_new : reachable (fst new_Logger)
| reachable_step op st st' out :
    reachable st -> step op st = Some (st', out) -> reachable st'.

(** The sinks alive in the store. *)
Definition live_sinks (st : State) : nat := size (heap st).

(** The object [sink_] owns, if it owns one. *)
Definition owned_sink (st : State) : option LogSink :=
  match sink_ (logger st) with
  | Some address => heap st !! address
  | None => None
  end.

(** The dynamic type [set_sink] gives the sink for a named [type]. *)
Definition sink_of_type (type : SinkType) (sink : LogSink) : bool :=
  match sink with
  | ConsoleSink => type =? CONSOLE
  | FileSink _ _ _ => type =? FILE
  | NullSink => type =? NONE
  end.

(** *** [parseSinkType] *)

(** [::tolower] in the "C" locale. *)
Definition tolower (c : ascii) : ascii :=
  let n := nat_of_ascii c in
  if ((65 <=? n) && (n <=? 90))%nat then ascii_of_nat (n + 32) else c.

Fixpoint transform_tolower (s : string) : string :=
  match s with
  | String c s' => String (tolower c) (transform_tolower s')
  | EmptyString => EmptyString
  end.

Definition parseSinkType (arg : string) : SinkType :=
  let lower_arg := transform_tolower arg in
  if String.eqb lower_arg "console" then CONSOLE
  else if String.eqb lower_arg "file" then FILE
  else if String.eqb lower_arg "none" then NONE
  else CONSOLE.

(** *** [Logger::instance] and [main] *)

(** The static local [instance_]: [None] until the first call of
    [instance()], which constructs the logger; later calls return it as
    it is. *)
Definition instance (instance_ : option State) : State * list Event :=
  match instance_ with
  | Some st => (st, [])
  | None => new_Logger
  end.

(** [Logger::instance().op(...)] *)
Definition call_instance (op : Operation) (instance_ : option State)
  : option (option State * list Event) :=
  let '(st, built) := instance instance_ in
  match step op st with
  | None => None
  | Some (st', out) => Some (Some st', built ++ out)
  end.

Fixpoint call_instance_all (ops : list Operation) (instance_ : option State)
  : option (option State * list Event) :=
  match ops with
  | [] => Some (instance_, [])
  | op :: rest =>
      match call_instance op instance_ with
      | None => None
      | Some (instance_', out) =>
          match call_instance_all rest instance_' with
          | None => None
          | Some (instance_'', out') => Some (instance_'', out ++ out')
          end
      end
  end.

(** The calls of [main] on the logger, for the [sink_type] it chose.
    [source_location::current()] is the place of each call: its line in
    [main.cpp], and the names the compiler gives the file and [main].
    [envs n] is what the file system answers at the call number [n]. *)
Definition main_calls (file function : string) (envs : nat -> Environment)
  (sink_type : SinkType) : list Operation :=
  [Op_set_sink (envs 0%nat) sink_type;
   Op_log (envs 1%nat) "First test message." (mk_source_location file function 136);
   Op_log (envs 2%nat) "Second test message." (mk_source_location file function 137);
   Op_set_sink (envs 3%nat) FILE;
   Op_log (envs 4%nat) "Message to file." (mk_source_location file function 139);
   Op_set_sink (envs 5%nat) NONE;
   Op_log (envs 6%nat) "This message should go nowhere."
     (mk_source_location file function 141);
   Op_set_sink (envs 7%nat) CONSOLE;
   Op_log (envs 8%nat) "Back to console output." (mk_source_location file function 143)].

(** The destructor of the static logger, run when the process exits:
    its [unique_ptr] deletes the sink it owns. *)
Definition at_exit (env : Environment) (instance_ : option State) : list Event :=
  match instance_ with
  | Some st =>
      match sink_ (logger st) with
      | Some address =>
          Destroy address
          :: match heap st !! address with
             | Some sink => delete_sink env sink
             | None => []
             end
      | None => []
      end
  | None => []
  end.

(** [argv] holds the program name and the arguments. The result is the
    value returned and the trace up to the end of the process; [None]
    is undefined behaviour. *)
Definition main (file function : string) (envs : nat -> Environment)
  (argv : list string) : option (Z * list Event) :=
  let '(sink_type, said) :=
    match argv with
    | _ :: arg :: _ =>
        (parseSinkType arg,
         [Cout ("Command line argument received: " +:+ arg +:+ nl)])
    | _ =>
        (CONSOLE,
         [Cout ("No command line argument provided. Using default console output."
                +:+ nl)])
    end in
  match call_instance_all (main_calls file function envs sink_type) None with
  | None => None
  | Some (instance_, out) =>
      Some (0, said ++ out ++ [Cout ("Program finished." +:+ nl)]
               ++ at_exit (envs 9%nat) instance_)
  end.

End LoggerDemo.

(** ** Vocabulary of the statements *)

Fixpoint string_forallb (P : ascii -> bool) (s : string) : bool :=
  match s with
  | String c s' => P c && string_forallb P s'
  | EmptyString => true
  end.

(** The number a string of decimal digits denotes, by position. *)
Fixpoint decimal (ds : string) : Z :=
  match ds with
  | String c ds' =>
      default 0 (digit_value c) * 10 ^ Z.of_nat (String.length ds') + decimal ds'
  | EmptyString => 0
  end.

Definition no_leading_digit (s : string) : bool :=
  match s with
  | String c _ => negb (isdigit c)
  | EmptyString => true
  end.

Definition is_sign (sgn : string) : Prop := sgn = "" \/ sgn = "+" \/ sgn = "-".

Definition signed (sgn : string) (magnitude : Z) : Z :=
  if String.eqb sgn "-" then - magnitude else magnitude.

(** [str] starts, after white space, with a decimal numeral of value
    [v]: an optional sign and the longest run of digits, not empty. *)
Definition numeral_prefix (str : string) (v : Z) : Prop :=
  exists ws sgn ds rest,
    str = ws +:+ sgn +:+ ds +:+ rest /\
    string_forallb isspace ws = true /\
    is_sign sgn /\
    ds <> "" /\ string_forallb isdigit ds = true /\
    no_leading_digit rest = true /\
    v = signed sgn (decimal ds).

(** [tok] is, as a whole, a decimal numeral of value [v]. *)
Definition integer_literal (tok : string) (v : Z) : Prop :=
  exists sgn ds,
    tok = sgn +:+ ds /\ is_sign sgn /\
    ds <> "" /\ string_forallb isdigit ds = true /\
    v = signed sgn (decimal ds).

(** What [FileReader::read] makes of one token. *)
Definition token_number (number_str : string) : option Z :=
  match stoi number_str with
  | stoi_ok v => Some v
  | _ => None
  end.

Definition token_warning (number_str : string) : option Pipeline.Output :=
  match stoi number_str with
  | stoi_ok _ => None
  | stoi_invalid_argument => Some (Pipeline.invalid_number_warning number_str)
  | stoi_out_of_range => Some (Pipeline.out_of_range_warning number_str)
  end.

(** Every registered pointer points to an observer of the store. *)
Definition registered_alive {O : Type} (observers : list nat) (store : gmap nat O)
  : Prop :=
  Forall (fun observer => is_Some (store !! observer)) observers.

(** One virtual call on the observer at [observer]: the callback is
    applied to the object found there, the object it leaves replaces it,
    and the call and what it printed follow what has happened so far. *)
Definition invoke {O : Type} (call : O -> O * list Pipeline.Output)
  (mark : Pipeline.Event) (observer : nat)
  (st : gmap nat O * list Pipeline.Event)
  : option (gmap nat O * list Pipeline.Event) :=
  match fst st !! observer with
  | None => None
  | Some o =>
      let '(o', out) := call o in
      Some (<[observer := o']> (fst st),
            snd st ++ mark :: map Pipeline.Print out)
  end.

(** [A->on_number(number); B->on_number(number);] for each number of
    [kept], in order. *)
Fixpoint invoke_on_number {O : Type} `{!Pipeline.INumberObserver O} (A B : nat)
  (kept : list Z) (st : gmap nat O * list Pipeline.Event)
  : option (gmap nat O * list Pipeline.Event) :=
  match kept with
  | [] => Some st
  | number :: rest =>
      match invoke (fun o => Pipeline.on_number o number)
                   (Pipeline.Call_on_number A number) A st with
      | None => None
      | Some st1 =>
          match invoke (fun o => Pipeline.on_number o number)
                       (Pipeline.Call_on_number B number) B st1 with
          | None => None
          | Some st2 => invoke_on_number A B rest st2
          end
      end
  end.

(** [A->on_finished(); B->on_finished();] *)
Definition invoke_on_finished {O : Type} `{!Pipeline.INumberObserver O}
  (A B : nat)
  (st : gmap nat O * list Pipeline.Event)
  : option (gmap nat O * list Pipeline.Event) :=
  match invoke Pipeline.on_finished (Pipeline.Call_on_finished A) A st with
  | None => None
  | Some st1 => invoke Pipeline.on_finished (Pipeline.Call_on_finished B) B st1
  end.


(** A filter argument of the command line the factory accepts: EVEN,
    ODD, or GT followed by text that starts with a numeral in range. *)
Definition valid_filter_spec (filter_arg : string) : Prop :=
  filter_arg = "EVEN" \/ filter_arg = "ODD" \/
  exists n v, filter_arg = "GT" +:+ n /\ numeral_prefix n v /\ is_int v.

(** The processor [main] builds around the filter it was given. *)
Definition main_processor (filter : Pipeline.NumberFilter)
  : Pipeline.NumberProcessor Pipeline.FileReader Pipeline.NumberFilter :=
  Pipeline.mk_NumberProcessor Pipeline.mk_FileReader filter
    [Pipeline.print_observer; Pipeline.count_observer].

(** What [run] and [main] print when the file cannot be opened. *)
Definition could_not_open (filename : string) : Pipeline.Event :=
  Pipeline.Print
    (Pipeline.Cerr ("Error during processing: Could not open file: "
                    +:+ filename +:+ nl)).

(** The file of the end-to-end example: ["2 3 x 4\n5 -2\n"]. *)
Definition sample_content : string := "2 3 x 4" +:+ nl +:+ "5 -2" +:+ nl.

Definition sample_fs : Pipeline.FileSystem :=
  fun filename =>
    if String.eqb filename "numbers.txt" then Some sample_content else None.

(** The logger owns exactly one sink: [sink_] is not null and its
    object is the only one of the store. *)
Definition owns_one_sink (st : LoggerDemo.State) : Prop :=
  exists address sink,
    LoggerDemo.sink_ (LoggerDemo.logger st) = Some address /\
    LoggerDemo.heap st = {[address := sink]}.

Definition recognized (type : LoggerDemo.SinkType) : Prop :=
  type = LoggerDemo.CONSOLE \/ type = LoggerDemo.FILE \/ type = LoggerDemo.NONE.

(** An event that is text reaching [app.log]. *)
Definition is_append (e : LoggerDemo.Event) : Prop :=
  match e with
  | LoggerDemo.Append_app_log _ => True
  | _ => False
  end.

(** The events of a trace that concern the sink objects. *)
Definition is_object_event (e : LoggerDemo.Event) : bool :=
  match e with
  | LoggerDemo.Construct _ | LoggerDemo.Destroy _ | LoggerDemo.Call_write _ _ => true
  | _ => false
  end.

Definition object_events (trace : list LoggerDemo.Event) : list LoggerDemo.Event :=
  List.filter is_object_event trace.

(** The calls of the demonstration in [main], after the first
    [set_sink]. *)
Definition sample_env : LoggerDemo.Environment :=
  LoggerDemo.mk_Environment true true (fun text => ("", text)).

Definition sample_location : LoggerDemo.source_location :=
  LoggerDemo.mk_source_location "main.cpp" "main" 139.

(** *** Vocabulary of the further properties *)

(** A text without white space. *)
Definition no_space (s : string) : bool :=
  string_forallb (fun c => negb (isspace c)) s.

(** The text that holds the decimal representation of each number of
    [numbers], each followed by a line feed. *)
Fixpoint number_lines (numbers : list Z) : string :=
  match numbers with
  | [] => ""
  | v :: rest => to_string v +:+ nl +:+ number_lines rest
  end.

(** Three files: two texts, and the two joined by a space. *)
Definition joined_fs : Pipeline.FileSystem :=
  fun filename =>
    if String.eqb filename "a.txt" then Some "1 x"
    else if String.eqb filename "b.txt" then Some "y 2"
    else if String.eqb filename "ab.txt" then Some "1 x y 2"
    else None.

(** What the two observers of [main] do for a number that is kept. *)
Definition kept_events (number : Z) : list Pipeline.Event :=
  [Pipeline.Call_on_number Pipeline.print_observer number;
   Pipeline.Print
     (Pipeline.Cout ("Read and filtered number: " +:+ to_string number +:+ nl));
   Pipeline.Call_on_number Pipeline.count_observer number].

(** What they do at the end, [count] numbers having been kept. *)
Definition finished_events (count : Z) : list Pipeline.Event :=
  [Pipeline.Call_on_finished Pipeline.print_observer;
   Pipeline.Print (Pipeline.Cout ("Number processing finished." +:+ nl));
   Pipeline.Call_on_finished Pipeline.count_observer;
   Pipeline.Print
     (Pipeline.Cout ("Total number of filtered numbers: " +:+ to_string count +:+ nl))].

(** The store of [main] when the count observer has counted [count]. *)
Definition counting_store (count : Z) : gmap nat Pipeline.NumberObserver :=
  <[Pipeline.count_observer := Pipeline.CountObserver count]>
    (<[Pipeline.print_observer := Pipeline.PrintObserver]> ∅).

(** What a trace of the logger writes to [app.log], to [cerr] and to
    [cout]. *)
Definition appended (trace : list LoggerDemo.Event) : list string :=
  omap (fun e => match e with LoggerDemo.Append_app_log text => Some text | _ => None end)
    trace.

Definition on_cerr (trace : list LoggerDemo.Event) : list string :=
  omap (fun e => match e with LoggerDemo.Cerr text => Some text | _ => None end) trace.

Definition on_cout (trace : list LoggerDemo.Event) : list string :=
  omap (fun e => match e with LoggerDemo.Cout text => Some text | _ => None end) trace.

(** The sinks a trace constructs and those it destroys, in order. *)
Definition constructed (trace : list LoggerDemo.Event) : list nat :=
  omap (fun e => match e with LoggerDemo.Construct a => Some a | _ => None end) trace.

Definition destroyed (trace : list LoggerDemo.Event) : list nat :=
  omap (fun e => match e with LoggerDemo.Destroy a => Some a | _ => None end) trace.

(** A [log] call: what the file system answers, the message, the place. *)
Definition log_call : Type :=
  LoggerDemo.Environment * string * LoggerDemo.source_location.

Definition op_log (call : log_call) : LoggerDemo.Operation :=
  let '(env, msg, location) := call in LoggerDemo.Op_log env msg location.

(** The line a [log] call hands to the sink, with the line feed of
    [endl]. *)
Definition log_line (call : log_call) : string :=
  let '(_, msg, location) := call in
  LoggerDemo.formatLogMessage msg location +:+ nl.

Definition writable (call : log_call) : Prop :=
  LoggerDemo.can_write (fst (fst call)) = true.

(** [c] is the letter [lower], in either case. *)
Definition letter (lower upper c : ascii) : Prop := c = lower \/ c = upper.

(** [arg] is the word [lower], each letter in either case; [upper] is
    the word in upper case. *)
Fixpoint in_any_case (lower upper arg : string) : Prop :=
  match lower, upper, arg with
  | String l lower', String u upper', String c arg' =>
      letter l u c /\ in_any_case lower' upper' arg'
  | EmptyString, EmptyString, EmptyString => True
  | _, _, _ => False
  end.

(** [tolower] maps to each letter of [lower] exactly the letter itself
    and the letter of [upper] at its place. *)
Fixpoint case_pairs (lower upper : string) : Prop :=
  match lower, upper with
  | String l lower', String u upper' =>
      (forall c, LoggerDemo.tolower c = l <-> letter l u c) /\
      case_pairs lower' upper'
  | EmptyString, EmptyString => True
  | _, _ => False
  end.

(** The sink at [address] after the [log] calls [calls] in a row, and
    the trace of these calls. *)
Fixpoint write_all (address : nat) (sink : LoggerDemo.LogSink) (calls : list log_call)
  : LoggerDemo.LogSink * list LoggerDemo.Event :=
  match calls with
  | [] => (sink, [])
  | (env, msg, location) :: rest =>
      let text := LoggerDemo.formatLogMessage msg location in
      let '(sink', out) := LoggerDemo.write env sink text in
      let '(sink'', out') := write_all address sink' rest in
      (sink'', LoggerDemo.Call_write address text :: out ++ out')
  end.

(** The lines of [main.cpp] that reach [app.log] when the first sink is
    of kind [sink_type]. *)
Definition main_app_log (file function : string) (sink_type : LoggerDemo.SinkType)
  : list string :=
  (if sink_type =? LoggerDemo.FILE then
     [LoggerDemo.formatLogMessage "First test message."
        (LoggerDemo.mk_source_location file function 136) +:+ nl;
      LoggerDemo.formatLogMessage "Second test message."
        (LoggerDemo.mk_source_location file function 137) +:+ nl]
   else [])
  ++ [LoggerDemo.formatLogMessage "Message to file."
        (LoggerDemo.mk_source_location file function 139) +:+ nl].

(** Two [log] calls, as [main] makes them first, with a file system
    that accepts the writes; a call it refuses; and the state of a
    logger after [set_sink (NONE)]. *)
Definition sample_calls : list log_call :=
  [(sample_env, "First test message.", LoggerDemo.mk_source_location "main.cpp" "main" 136);
   (sample_env, "Second test message.", LoggerDemo.mk_source_location "main.cpp" "main" 137)].

Definition refused_call : log_call :=
  (LoggerDemo.mk_Environment true false (fun text => (String.substring 0 5 text, text)),
   "Message to file.", LoggerDemo.mk_source_location "main.cpp" "main" 139).

(** The line of a [log] call as the sinks receive it, written out:
    [[file:function:line] message] and the line feed of [endl]. *)
Definition located_line (call : log_call) : string :=
  let '(_, msg, location) := call in
  "[" +:+ LoggerDemo.file_name location +:+ ":"
  +:+ LoggerDemo.function_name location +:+ ":"
  +:+ to_string (Z.of_N (LoggerDemo.line location)) +:+ "] " +:+ msg +:+ nl.

Definition sample_state_none : LoggerDemo.State :=
  LoggerDemo.mk_State (LoggerDemo.mk_Logger (Some 1%nat) LoggerDemo.NONE)
    {[1%nat := LoggerDemo.NullSink]}.

(** The lines of [main.cpp] that reach [cout] after what [main] says
    first, when the first sink is of kind [sink_type]. *)
Definition main_cout (file function : string) (sink_type : LoggerDemo.SinkType)
  : list string :=
  (if sink_type =? LoggerDemo.FILE then
     ["Logging redirected to file app.log." +:+ nl]
   else if sink_type =? LoggerDemo.NONE then ["Logging disabled." +:+ nl]
   else
     ["Logging redirected to console." +:+ nl;
      LoggerDemo.formatLogMessage "First test message."
        (LoggerDemo.mk_source_location file function 136) +:+ nl;
      LoggerDemo.formatLogMessage "Second test message."
        (LoggerDemo.mk_source_location file function 137) +:+ nl])
  ++ ["Logging redirected to file app.log." +:+ nl;
      "Logging disabled." +:+ nl;
      "Logging redirected to console." +:+ nl;
      LoggerDemo.formatLogMessage "Back to console output."
        (LoggerDemo.mk_source_location file function 143) +:+ nl;
      "Program finished." +:+ nl].

(** What [main] says first, about its command line. *)
Definition main_said (argv : list string) : list LoggerDemo.Event :=
  match argv with
  | _ :: arg :: _ =>
      [LoggerDemo.Cout ("Command line argument received: " +:+ arg +:+ nl)]
  | _ =>
      [LoggerDemo.Cout
         ("No command line argument provided. Using default console output." +:+ nl)]
  end.

(** The kind of sink [main] asks for first. *)
Definition main_sink_type (argv : list string) : LoggerDemo.SinkType :=
  match argv with
  | _ :: arg :: _ => LoggerDemo.parseSinkType arg
  | _ => LoggerDemo.CONSOLE
  end.

(** ** Facts about [stoi] *)

Section Stoi.

Lemma string_app_assoc (a b c : string) : (a +:+ b) +:+ c = a +:+ (b +:+ c).
Proof.
  induction a as [|x a IH]; cbn [String.append]; [reflexivity | now f_equal].
Qed.

Lemma string_app_empty_r (a : string) : a +:+ "" = a.
Proof.
  induction a as [|x a IH]; cbn [String.append]; [reflexivity | now f_equal].
Qed.

Lemma isdigit_not_space c : isdigit c = true -> isspace c = false.
Proof.
  destruct c as [b0 b1 b2 b3 b4 b5 b6 b7].
  destruct b0, b1, b2, b3, b4, b5, b6, b7; vm_compute; congruence.
Qed.

Lemma isdigit_not_sign c s :
  isdigit c = true -> split_sign (String c s) = (false, String c s).
Proof.
  destruct c as [b0 b1 b2 b3 b4 b5 b6 b7].
  destruct b0, b1, b2, b3, b4, b5, b6, b7; vm_compute; congruence.
Qed.

Lemma isdigit_value c : isdigit c = true -> exists d, digit_value c = Some d.
Proof. unfold isdigit. destruct (digit_value c); [eauto | discriminate]. Qed.

Lemma not_isdigit_value c : isdigit c = false -> digit_value c = None.
Proof. unfold isdigit. destruct (digit_value c); [discriminate | reflexivity]. Qed.

Lemma skip_space_app ws s :
  string_forallb isspace ws = true -> skip_space (ws +:+ s) = skip_space s.
Proof.
  induction ws as [|c ws IH]; simpl; [reflexivity |].
  intros [Hc Hws]%andb_prop. rewrite Hc. auto.
Qed.

(** [skip_space] removes a prefix of white space and nothing else. *)
Lemma skip_space_split s :
  exists ws, s = ws +:+ skip_space s /\ string_forallb isspace ws = true.
Proof.
  induction s as [|c s [ws [Hs Hws]]]; simpl.
  - exists ""; auto.
  - destruct (isspace c) eqn:Hc.
    + exists (String c ws); simpl. rewrite Hc, <- Hs. auto.
    + exists ""; auto.
Qed.

Lemma split_sign_split s :
  exists sgn, s = sgn +:+ snd (split_sign s) /\ is_sign sgn /\
              fst (split_sign s) = String.eqb sgn "-".
Proof.
  destruct s as [|c s]; [exists ""; unfold is_sign; auto |].
  destruct (Ascii.eqb c "-") eqn:Hm; [apply Ascii.eqb_eq in Hm; subst c |].
  { exists "-"; unfold is_sign; auto. }
  destruct (Ascii.eqb c "+") eqn:Hp; [apply Ascii.eqb_eq in Hp; subst c |].
  { exists "+"; unfold is_sign; auto. }
  exists ""; unfold is_sign.
  destruct c as [b0 b1 b2 b3 b4 b5 b6 b7].
  destruct b0, b1, b2, b3, b4, b5, b6, b7; simpl in *; auto; discriminate.
Qed.

(** Every string is its longest run of leading digits and a rest. *)
Lemma digits_split s :
  exists ds rest, s = ds +:+ rest /\ string_forallb isdigit ds = true /\
                  no_leading_digit rest = true.
Proof.
  induction s as [|c s (ds & rest & Hs & Hds & Hrest)].
  - exists "", ""; auto.
  - destruct (isdigit c) eqn:Hc.
    + exists (String c ds), rest; simpl. rewrite Hc, <- Hs. auto.
    + exists "", (String c s); simpl. rewrite Hc. auto.
Qed.

Lemma scan_digits_app ds rest acc seen :
  string_forallb isdigit ds = true -> no_leading_digit rest = true ->
  scan_digits (ds +:+ rest) acc seen =
    (acc * 10 ^ Z.of_nat (String.length ds) + decimal ds,
     seen || negb (String.eqb ds "")).
Proof.
  revert acc seen; induction ds as [|c ds IH]; intros acc seen Hds Hrest.
  - simpl String.append. rewrite orb_false_r.
    replace (acc * 10 ^ Z.of_nat (String.length "") + decimal "") with acc
      by (simpl; lia).
    destruct rest as [|c rest]; [reflexivity |].
    simpl in *. apply negb_true_iff, not_isdigit_value in Hrest.
    now rewrite Hrest.
  - simpl in Hds. apply andb_prop in Hds as [Hc Hds].
    destruct (isdigit_value _ Hc) as [d Hd].
    cbn [String.append scan_digits]. rewrite Hd, IH by assumption.
    rewrite orb_true_r. f_equal.
    cbn [decimal String.length]. rewrite Hd. cbn [default].
    rewrite Nat2Z.inj_succ, Z.pow_succ_r by lia. unfold id. ring.
Qed.

(** A string with a numeral prefix converts to the value of the
    prefix, or is out of range. *)
Lemma stoi_numeral_prefix str v :
  numeral_prefix str v ->
  stoi str = if in_int_range v then stoi_ok v else stoi_out_of_range.
Proof.
  intros (ws & sgn & ds & rest & -> & Hws & Hsgn & Hne & Hds & Hrest & ->).
  unfold stoi. rewrite skip_space_app by assumption.
  destruct ds as [|c ds]; [congruence |].
  pose proof Hds as Hc. simpl in Hc. apply andb_prop in Hc as [Hc _].
  assert (Hsplit : split_sign (skip_space (sgn +:+ String c ds +:+ rest))
                   = (String.eqb sgn "-", String c ds +:+ rest)).
  { destruct Hsgn as [-> | [-> | ->]]; simpl String.append.
    - cbn [skip_space]. rewrite (isdigit_not_space _ Hc).
      now rewrite isdigit_not_sign.
    - reflexivity.
    - reflexivity. }
  rewrite Hsplit, scan_digits_app by assumption.
  cbn [orb String.eqb negb]. unfold signed.
  replace (0 * 10 ^ Z.of_nat (String.length (String c ds)) + decimal (String c ds))
    with (decimal (String c ds)) by lia.
  reflexivity.
Qed.

(** [stoi] throws [invalid_argument] exactly when there is no numeral
    prefix, and otherwise decides by the range of its value. *)
Lemma stoi_cases str :
  (stoi str = stoi_invalid_argument /\ forall v, ~ numeral_prefix str v) \/
  (exists v, numeral_prefix str v /\
             stoi str = if in_int_range v then stoi_ok v else stoi_out_of_range).
Proof.
  destruct (skip_space_split str) as (ws & Hstr & Hws).
  destruct (split_sign_split (skip_space str)) as (sgn & Hs1 & Hsgn & Hneg).
  destruct (digits_split (snd (split_sign (skip_space str))))
    as (ds & rest & Hs2 & Hds & Hrest).
  destruct ds as [|c ds].
  - left. assert (Hinv : stoi str = stoi_invalid_argument).
    { unfold stoi. destruct (split_sign (skip_space str)) as [negative digits].
      simpl in Hs2. subst digits.
      destruct rest as [|c rest]; [reflexivity |].
      simpl in Hrest. apply negb_true_iff, not_isdigit_value in Hrest.
      simpl. now rewrite Hrest. }
    split; [assumption |].
    intros v Hv. apply stoi_numeral_prefix in Hv. rewrite Hinv in Hv.
    destruct (in_int_range v); discriminate.
  - right. exists (signed sgn (decimal (String c ds))).
    assert (Hv : numeral_prefix str (signed sgn (decimal (String c ds)))).
    { exists ws, sgn, (String c ds), rest.
      repeat split; try assumption; try discriminate.
      rewrite Hstr at 1. f_equal. rewrite Hs1 at 1. f_equal. exact Hs2. }
    split; [assumption | now apply stoi_numeral_prefix].
Qed.

Lemma in_int_range_is_int v : in_int_range v = true <-> is_int v.
Proof. unfold in_int_range, is_int. rewrite andb_true_iff. lia. Qed.

Example stoi_examples :
  stoi "42" = stoi_ok 42 /\ stoi "-2" = stoi_ok (-2) /\ stoi "+7" = stoi_ok 7 /\
  stoi "x" = stoi_invalid_argument /\ stoi "" = stoi_invalid_argument /\
  stoi "-" = stoi_invalid_argument /\
  stoi "-2147483648" = stoi_ok INT_MIN /\ stoi "2147483647" = stoi_ok INT_MAX /\
  stoi "2147483648" = stoi_out_of_range /\
  stoi "-2147483649" = stoi_out_of_range /\
  stoi "12abc" = stoi_ok 12 /\ stoi " 5" = stoi_ok 5.
Proof. repeat split. Qed.

Lemma stoi_ok_iff str v :
  stoi str = stoi_ok v <-> numeral_prefix str v /\ is_int v.
Proof.
  rewrite <- in_int_range_is_int. split.
  - destruct (stoi_cases str) as [[Hinv _] | (w & Hw & Hs)]; [congruence |].
    rewrite Hs. destruct (in_int_range w) eqn:Ew; [| discriminate].
    intros [= <-]. auto.
  - intros [Hv Hr]. apply stoi_numeral_prefix in Hv. now rewrite Hr in Hv.
Qed.

Lemma stoi_out_of_range_iff str :
  stoi str = stoi_out_of_range <-> exists v, numeral_prefix str v /\ ~ is_int v.
Proof.
  split.
  - destruct (stoi_cases str) as [[Hinv _] | (w & Hw & Hs)]; [congruence |].
    rewrite Hs. destruct (in_int_range w) eqn:Ew; [discriminate |].
    intros _. exists w. split; [assumption |].
    rewrite <- in_int_range_is_int. congruence.
  - intros (v & Hv & Hr). apply stoi_numeral_prefix in Hv.
    rewrite <- in_int_range_is_int in Hr.
    destruct (in_int_range v); [congruence | assumption].
Qed.

Lemma stoi_invalid_argument_iff str :
  stoi str = stoi_invalid_argument <-> forall v, ~ numeral_prefix str v.
Proof.
  split.
  - destruct (stoi_cases str) as [[_ Hno] | (w & Hw & Hs)]; [auto |].
    rewrite Hs. destruct (in_int_range w); discriminate.
  - intros Hno. destruct (stoi_cases str) as [[Hinv _] | (w & Hw & _)];
      [assumption | now apply Hno in Hw].
Qed.

End Stoi.

(** ** Facts about the number pipeline *)

Module PipelineFacts.
Import Pipeline.

(** *** The reader *)

Section Reader.

Lemma line_feed_isspace : isspace (ascii_of_nat 10) = true.
Proof. reflexivity. Qed.

(** White space ends the token being extracted. *)
Lemma extract_from_space a c b cur :
  isspace c = true ->
  extract_from (a +:+ String c b) cur = extract_from a cur ++ extract_from b "".
Proof.
  intros Hc. revert cur; induction a as [|x a IH]; intros cur; simpl.
  - rewrite Hc. now destruct cur.
  - destruct (isspace x); [| apply IH].
    destruct cur; simpl; now rewrite IH.
Qed.

(** Reading line by line and then token by token finds the white-space
    separated tokens of the whole text, in the same order. *)
Lemma extract_getlines_from s cur :
  concat (map extract (getlines_from s cur)) = extract (cur +:+ s).
Proof.
  revert cur; induction s as [|c s IH]; intros cur; simpl.
  - rewrite string_app_empty_r. destruct cur; simpl; [reflexivity |].
    apply app_nil_r.
  - destruct (Ascii.eqb c (ascii_of_nat 10)) eqn:Hc.
    + apply Ascii.eqb_eq in Hc; subst c. simpl. rewrite IH.
      unfold extract at 3. now rewrite extract_from_space.
    + rewrite IH. now rewrite string_app_assoc.
Qed.

Lemma extract_getlines content :
  concat (map extract (getlines content)) = extract content.
Proof. apply extract_getlines_from. Qed.

Lemma fold_read_token toks numbers out :
  fold_left read_token toks (numbers, out) =
    (numbers ++ omap token_number toks, out ++ omap token_warning toks).
Proof.
  revert numbers out; induction toks as [|tok toks IH]; intros numbers out.
  - simpl. now rewrite !app_nil_r.
  - cbn [fold_left omap list_omap]. unfold read_token at 2.
    unfold token_number at 1, token_warning at 1.
    destruct (stoi tok); rewrite IH; cbn [omap list_omap];
      now rewrite <- ?app_assoc.
Qed.

Lemma fold_read_line lines numbers out :
  fold_left read_line lines (numbers, out) =
    (numbers ++ omap token_number (concat (map extract lines)),
     out ++ omap token_warning (concat (map extract lines))).
Proof.
  revert numbers out; induction lines as [|l lines IH]; intros numbers out.
  - simpl. now rewrite !app_nil_r.
  - cbn [fold_left map concat]. unfold read_line at 2.
    rewrite fold_read_token, IH, !omap_app. now rewrite <- !app_assoc.
Qed.

(** What [read] returns for a file it can open. *)
Lemma FileReader_read_open fs filename content :
  fs filename = Some content ->
  FileReader_read fs filename =
    (Ok (omap token_number (extract content)),
     omap token_warning (extract content)).
Proof.
  intros Hopen. unfold FileReader_read. rewrite Hopen, fold_read_line.
  now rewrite extract_getlines.
Qed.


Lemma token_number_iff tok v :
  token_number tok = Some v <-> numeral_prefix tok v /\ is_int v.
Proof.
  rewrite <- stoi_ok_iff. unfold token_number.
  destruct (stoi tok); split; congruence.
Qed.


Lemma integer_literal_numeral_prefix tok v :
  integer_literal tok v -> numeral_prefix tok v.
Proof.
  intros (sgn & ds & -> & Hsgn & Hne & Hds & ->).
  exists "", sgn, ds, "". rewrite string_app_empty_r. simpl. auto 10.
Qed.

End Reader.




(** *** The filters *)

(** C5. [EvenNumberFilter::keep] and [OddNumberFilter::keep] split the
    integers, negative ones included: on every number exactly one of the
    two returns true, the first on the multiples of 2. *)
Theorem even_odd_partition (number : Z) :
  xorb (EvenNumberFilter_keep number) (OddNumberFilter_keep number) = true /\
  keep EvenNumberFilter number = Z.even number /\
  keep OddNumberFilter number = Z.odd number.
Proof.
  unfold keep, NumberFilter_INumberFilter, EvenNumberFilter_keep,
    OddNumberFilter_keep.
  rewrite Zrem_even, <- Z.negb_even.
  destruct (Z.even number) eqn:Heven; [auto |].
  destruct number; simpl; auto; discriminate Heven.
Qed.

(** C6. [GreaterThanFilter (T)] keeps exactly the values above [T], and
    so not [T] itself. *)
Theorem greater_than_strict (T v : Z) :
  (GreaterThanFilter_keep T v = true <-> v > T) /\
  GreaterThanFilter_keep T T = false /\
  keep (GreaterThanFilter T) v = GreaterThanFilter_keep T v.
Proof.
  unfold keep, NumberFilter_INumberFilter, GreaterThanFilter_keep.
  split; [apply Z.gtb_gt |]. split; [| reflexivity].
  rewrite Z.gtb_ltb. apply Z.ltb_irrefl.
Qed.

(** *** The factory *)

Section Factory.

Lemma registry_names filterType :
  creators_ new_FilterFactory !! filterType = None <->
  filterType <> "EVEN" /\ filterType <> "ODD" /\ filterType <> "GT".
Proof.
  unfold new_FilterFactory, registerFilter; cbn [creators_].
  rewrite !lookup_insert_None, lookup_empty. intuition congruence.
Qed.

Lemma createFilter_GT filterArg :
  createFilter new_FilterFactory "GT" filterArg = create_GT filterArg.
Proof.
  unfold createFilter, new_FilterFactory, registerFilter; cbn [creators_].
  now rewrite lookup_insert_eq.
Qed.

Lemma createFilter_ODD filterArg :
  createFilter new_FilterFactory "ODD" filterArg = Ok OddNumberFilter.
Proof.
  unfold createFilter, new_FilterFactory, registerFilter; cbn [creators_].
  rewrite lookup_insert_ne by discriminate. now rewrite lookup_insert_eq.
Qed.

Lemma createFilter_EVEN filterArg :
  createFilter new_FilterFactory "EVEN" filterArg = Ok EvenNumberFilter.
Proof.
  unfold createFilter, new_FilterFactory, registerFilter; cbn [creators_].
  rewrite !lookup_insert_ne by discriminate. now rewrite lookup_insert_eq.
Qed.

Lemma createFilter_unknown filterType filterArg :
  creators_ new_FilterFactory !! filterType = None ->
  createFilter new_FilterFactory filterType filterArg =
    Throw (mk_exception invalid_argument ("Unknown filter type: " +:+ filterType)).
Proof. intros Hnone. unfold createFilter. now rewrite Hnone. Qed.

End Factory.

(** C7, as stated, fails on an argument that starts with digits and goes
    on with other characters: ["5x"] is not an integer, and yet the
    factory returns the filter of threshold 5 for it. *)
Lemma createFilter_accepts_trailing_text :
  (forall v, ~ integer_literal "5x" v) /\
  createFilter new_FilterFactory "GT" "5x" = Ok (GreaterThanFilter 5).
Proof.
  split; [| now rewrite createFilter_GT].
  intros v (sgn & ds & Heq & [-> | [-> | ->]] & _ & Hds & _);
    simpl in Heq; try discriminate.
  subst ds. vm_compute in Hds. discriminate.
Qed.

(** C7, amended. [createFilter] fails with the unknown-filter-type
    condition for every name that is not in the registry, that is, other
    than EVEN, ODD and GT. For GT it fails with the invalid-argument
    condition when the argument does not start (after white space) with
    a decimal numeral, and with the out-of-range condition, of another
    exception class, when that numeral does not fit an [int]; otherwise
    it returns the filter whose threshold is the value of the numeral,
    whatever follows the digits. EVEN and ODD return their filters. *)
Theorem createFilter_conditions (filterType filterArg : string) :
  (creators_ new_FilterFactory !! filterType = None <->
   filterType <> "EVEN" /\ filterType <> "ODD" /\ filterType <> "GT") /\
  (creators_ new_FilterFactory !! filterType = None ->
   createFilter new_FilterFactory filterType filterArg =
     Throw (mk_exception invalid_argument ("Unknown filter type: " +:+ filterType))) /\
  createFilter new_FilterFactory "EVEN" filterArg = Ok EvenNumberFilter /\
  createFilter new_FilterFactory "ODD" filterArg = Ok OddNumberFilter /\
  ((forall v, ~ numeral_prefix filterArg v) ->
   createFilter new_FilterFactory "GT" filterArg =
     Throw (mk_exception invalid_argument
              ("Invalid argument for GT filter: " +:+ filterArg))) /\
  (forall v, numeral_prefix filterArg v -> ~ is_int v ->
   createFilter new_FilterFactory "GT" filterArg =
     Throw (mk_exception out_of_range
              ("Argument out of range for GT filter: " +:+ filterArg))) /\
  (forall v, numeral_prefix filterArg v -> is_int v ->
   createFilter new_FilterFactory "GT" filterArg = Ok (GreaterThanFilter v)).
Proof.
  split; [apply registry_names |].
  split; [apply createFilter_unknown |].
  split; [apply createFilter_EVEN |].
  split; [apply createFilter_ODD |].
  rewrite createFilter_GT. unfold create_GT.
  split; [| split].
  - intros Hno. apply stoi_invalid_argument_iff in Hno. now rewrite Hno.
  - intros v Hv Hr.
    assert (Hs : stoi filterArg = stoi_out_of_range)
      by (apply stoi_out_of_range_iff; eauto).
    now rewrite Hs.
  - intros v Hv Hr.
    assert (Hs : stoi filterArg = stoi_ok v) by (now apply stoi_ok_iff).
    now rewrite Hs.
Qed.

Lemma createFilter_conditions_witness :
  createFilter new_FilterFactory "GT" " -7 apples" = Ok (GreaterThanFilter (-7)).
Proof.
  apply (proj2 (proj2 (proj2 (proj2 (proj2 (proj2
           (createFilter_conditions "GT" " -7 apples"))))))).
  - exists " ", "-", "7", " apples". unfold is_sign. auto 10.
  - unfold is_int, INT_MIN, INT_MAX. lia.
Defined.

(** *** The processor *)

Section Processor.
Context {R F O : Type}.
Context `{!INumberReader R, !INumberFilter F, !INumberObserver O}.

Implicit Types (np : NumberProcessor R F) (store : gmap nat O).

Lemma calls_app t1 t2 : calls (t1 ++ t2) = calls t1 ++ calls t2.
Proof. apply List.filter_app. Qed.

Lemma calls_Print (out : list Output) : calls (map Print out) = [].
Proof. induction out as [|o out IH]; [reflexivity | exact IH]. Qed.

Lemma registered_alive_insert observers store p (o : O) :
  registered_alive observers store ->
  registered_alive observers (<[p := o]> store).
Proof.
  unfold registered_alive. intros Halive.
  eapply Forall_impl; [exact Halive |]. intros q Hq; cbn beta.
  rewrite lookup_insert_is_Some. destruct (decide (p = q)); auto.
Qed.

(** [notify] calls each registered observer once, in registration
    order, and keeps the registered observers alive. *)
Lemma notify_calls call mark observers all store :
  (forall p, is_call (mark p) = true) ->
  registered_alive observers store -> registered_alive all store ->
  exists store' trace,
    notify call mark observers store = Some (store', trace) /\
    calls trace = map mark observers /\
    registered_alive all store'.
Proof.
  intros Hmark. revert store.
  induction observers as [|p rest IH]; intros store Halive Hall.
  - exists store, []. auto.
  - apply Forall_cons in Halive as [[o Ho] Hrest].
    cbn [notify]. rewrite Ho. destruct (call o) as [o' out].
    destruct (IH (<[p := o']> store)) as (store' & trace & Hn & Hc & Hall');
      [now apply registered_alive_insert .. |].
    rewrite Hn. exists store', (mark p :: map Print out ++ trace).
    split; [reflexivity |]. split; [| assumption].
    change (mark p :: map Print out ++ trace)
      with ([mark p] ++ map Print out ++ trace).
    rewrite !calls_app, calls_Print, Hc. cbn [calls List.filter].
    now rewrite Hmark.
Qed.

(** The loop of [run] notifies for the kept numbers, in file order. *)
Lemma process_calls np numbers store :
  registered_alive (observers_ np) store ->
  exists store' trace,
    process np numbers store = Some (store', trace) /\
    calls trace =
      flat_map (fun number => map (fun p => Call_on_number p number) (observers_ np))
        (List.filter (keep (filter_ np)) numbers) /\
    registered_alive (observers_ np) store'.
Proof.
  revert store; induction numbers as [|number rest IH]; intros store Halive.
  - exists store, []. auto.
  - cbn [process List.filter]. destruct (keep (filter_ np) number).
    + destruct (notify_calls (fun o => on_number o number)
                  (fun p => Call_on_number p number)
                  (observers_ np) (observers_ np) store)
        as (store1 & trace1 & Hn & Hc1 & Halive1); auto.
      unfold notifyObservers. rewrite Hn.
      destruct (IH store1 Halive1) as (store2 & trace2 & Hp & Hc2 & Halive2).
      rewrite Hp. exists store2, (trace1 ++ trace2).
      split; [reflexivity |]. split; [| assumption].
      now rewrite calls_app, Hc1, Hc2.
    + apply IH, Halive.
Qed.

(** A run whose reader succeeds: the calls it makes. *)
Lemma run_calls np fs filename store numbers out :
  read (reader_ np) fs filename = (Ok numbers, out) ->
  registered_alive (observers_ np) store ->
  exists store' trace,
    run np fs filename store = Some (Ok tt, store', trace) /\
    calls trace =
      flat_map (fun number => map (fun p => Call_on_number p number) (observers_ np))
        (List.filter (keep (filter_ np)) numbers)
      ++ map Call_on_finished (observers_ np).
Proof.
  intros Hread Halive. unfold run. rewrite Hread.
  destruct (process_calls np numbers store Halive)
    as (store1 & trace1 & Hp & Hc1 & Halive1).
  rewrite Hp.
  destruct (notify_calls on_finished Call_on_finished
              (observers_ np) (observers_ np) store1)
    as (store2 & trace2 & Hn & Hc2 & _); auto.
  unfold notifyFinished. rewrite Hn.
  exists store2, (map Print out ++ trace1 ++ trace2).
  split; [reflexivity |].
  now rewrite !calls_app, calls_Print, Hc1, Hc2.
Qed.

(** A run whose reader throws a [runtime_error] reports it and does
    nothing else. *)
Lemma run_runtime_error np fs filename store e out :
  read (reader_ np) fs filename = (Throw e, out) ->
  exn_class e = runtime_error ->
  run np fs filename store =
    Some (Ok tt, store,
          map Print out
          ++ [Print (Cerr ("Error during processing: " +:+ what e +:+ nl))]).
Proof. intros Hread Hclass. unfold run. now rewrite Hread, Hclass. Qed.

(** A run on a file that cannot be opened. *)
Lemma run_FileReader_closed (filter : F) (observers : list nat) store fs filename :
  fs filename = None ->
  run (mk_NumberProcessor mk_FileReader filter observers) fs filename store
    = Some (Ok tt, store, [could_not_open filename]).
Proof.
  intros Hclosed.
  unfold run, read, FileReader_INumberReader, FileReader_read.
  cbn [reader_]. now rewrite Hclosed.
Qed.

(** The two calls of a notification are the two [invoke]s, after
    whatever has happened so far. *)
Lemma notify_invoke (call : O -> O * list Output) (mark : nat -> Event)
  A B store acc store' trace :
  notify call mark [A; B] store = Some (store', trace) ->
  match invoke call (mark A) A (store, acc) with
  | None => None
  | Some st1 => invoke call (mark B) B st1
  end = Some (store', acc ++ trace).
Proof.
  unfold invoke. cbn [notify fst snd].
  destruct (store !! A) as [a |]; [| discriminate].
  destruct (call a) as [a' outA]. cbn [fst snd].
  destruct (<[A := a']> store !! B) as [b |]; [| discriminate].
  destruct (call b) as [b' outB].
  intros [= <- <-]. f_equal. f_equal.
  rewrite <- app_assoc. cbn [app]. now rewrite app_nil_r.
Qed.

Lemma process_invoke np A B :
  observers_ np = [A; B] ->
  forall numbers store acc store' trace,
    process np numbers store = Some (store', trace) ->
    invoke_on_number A B (List.filter (keep (filter_ np)) numbers) (store, acc)
      = Some (store', acc ++ trace).
Proof.
  intros Hobs. induction numbers as [|number rest IH];
    intros store acc store' trace; cbn [process List.filter].
  - intros [= <- <-]. cbn [invoke_on_number]. now rewrite app_nil_r.
  - destruct (keep (filter_ np) number); [| apply IH].
    unfold notifyObservers. rewrite Hobs.
    destruct (notify _ _ [A; B] store) as [[store1 trace1] |] eqn:Hnotify;
      [| discriminate].
    destruct (process np rest store1) as [[store2 trace2] |] eqn:Hrest;
      [| discriminate].
    intros [= <- <-]. cbn [invoke_on_number].
    pose proof (notify_invoke _ _ A B store acc store1 trace1 Hnotify) as Htwo.
    destruct (invoke _ (Call_on_number A number) A (store, acc)) as [st1 |];
      [| discriminate].
    rewrite Htwo, app_assoc. now apply IH.
Qed.

(** C3. With the observers registered as [A; B], a run whose reader
    returns [numbers] makes these calls and no other: for each number
    the filter keeps, in the order read, [on_number] on [A] and then on
    [B]; and, after the last number, [on_finished] on [A] and then on
    [B]. Each call is made: what the run leaves, the observers and the
    output after what the reader printed, is what these invocations
    leave, one after the other. *)
Theorem run_notifies_in_registration_order np fs filename store numbers out A B :
  observers_ np = [A; B] ->
  is_Some (store !! A) -> is_Some (store !! B) ->
  read (reader_ np) fs filename = (Ok numbers, out) ->
  exists delivered store' trace,
    invoke_on_number A B (List.filter (keep (filter_ np)) numbers)
      (store, map Print out) = Some delivered /\
    invoke_on_finished A B delivered = Some (store', trace) /\
    run np fs filename store = Some (Ok tt, store', trace) /\
    calls trace =
      flat_map (fun number => [Call_on_number A number; Call_on_number B number])
        (List.filter (keep (filter_ np)) numbers)
      ++ [Call_on_finished A; Call_on_finished B].
Proof.
  intros Hobs HA HB Hread.
  destruct (run_calls np fs filename store numbers out Hread)
    as (store' & trace & Hrun & Hcalls).
  { rewrite Hobs. repeat constructor; assumption. }
  pose proof Hrun as Hsteps. unfold run in Hsteps. rewrite Hread in Hsteps.
  destruct (process np numbers store) as [[store1 trace1] |] eqn:Hprocess;
    [| discriminate].
  unfold notifyFinished in Hsteps. rewrite Hobs in Hsteps.
  destruct (notify on_finished Call_on_finished [A; B] store1)
    as [[store2 trace2] |] eqn:Hfinished; [| discriminate].
  injection Hsteps as <- <-.
  exists (store1, map Print out ++ trace1), store2,
    (map Print out ++ trace1 ++ trace2).
  split; [now apply process_invoke |].
  split; [| split; [assumption | now rewrite Hcalls, Hobs]].
  unfold invoke_on_finished.
  rewrite (notify_invoke _ _ A B store1 (map Print out ++ trace1)
             store2 trace2 Hfinished).
  now rewrite <- app_assoc.
Qed.

(** C4. When the file cannot be opened, [run] with a [FileReader]
    returns normally having written the error to [cerr] and nothing
    else: no [on_number] and no [on_finished] call is made, and the
    observers are as they were. *)
Theorem run_aborts_when_file_cannot_be_opened
  (filter : F) (observers : list nat) store fs filename :
  fs filename = None ->
  exists trace,
    run (mk_NumberProcessor mk_FileReader filter observers) fs filename store
      = Some (Ok tt, store, trace) /\
    trace = [could_not_open filename] /\
    calls trace = [].
Proof.
  intros Hclosed. eexists. split; [| split; reflexivity].
  now apply run_FileReader_closed.
Qed.

End Processor.

Lemma run_notifies_in_registration_order_witness :
  exists store' trace,
    run (main_processor (GreaterThanFilter 0)) sample_fs "numbers.txt" main_store
      = Some (Ok tt, store', trace) /\
    store' !! print_observer = Some PrintObserver /\
    store' !! count_observer = Some (CountObserver 4) /\
    trace =
      [Print (Cerr ("Warning: Invalid number in file: x. Skipping." +:+ nl));
       Call_on_number 0 2;
       Print (Cout ("Read and filtered number: 2" +:+ nl));
       Call_on_number 1 2;
       Call_on_number 0 3;
       Print (Cout ("Read and filtered number: 3" +:+ nl));
       Call_on_number 1 3;
       Call_on_number 0 4;
       Print (Cout ("Read and filtered number: 4" +:+ nl));
       Call_on_number 1 4;
       Call_on_number 0 5;
       Print (Cout ("Read and filtered number: 5" +:+ nl));
       Call_on_number 1 5;
       Call_on_finished 0;
       Print (Cout ("Number processing finished." +:+ nl));
       Call_on_finished 1;
       Print (Cout ("Total number of filtered numbers: 4" +:+ nl))] /\
    calls trace =
      [Call_on_number 0 2; Call_on_number 1 2; Call_on_number 0 3;
       Call_on_number 1 3; Call_on_number 0 4; Call_on_number 1 4;
       Call_on_number 0 5; Call_on_number 1 5;
       Call_on_finished 0; Call_on_finished 1].
Proof.
  destruct (run_notifies_in_registration_order
              (main_processor (GreaterThanFilter 0)) sample_fs "numbers.txt"
              main_store [2; 3; 4; 5; -2] [invalid_number_warning "x"]
              print_observer count_observer eq_refl
              (ex_intro _ PrintObserver eq_refl)
              (ex_intro _ (CountObserver 0) eq_refl) eq_refl)
    as (delivered & store' & trace & Hnumbers & Hfinished & Hrun & Hcalls).
  vm_compute in Hnumbers. injection Hnumbers as <-.
  vm_compute in Hfinished. injection Hfinished as <- <-.
  eexists. eexists. split; [exact Hrun |].
  repeat split; reflexivity.
Defined.

Lemma run_aborts_when_file_cannot_be_opened_witness :
  exists trace,
    run (main_processor EvenNumberFilter) sample_fs "missing.txt" main_store
      = Some (Ok tt, main_store, trace) /\
    trace = [could_not_open "missing.txt"] /\
    calls trace = [].
Proof.
  exact (run_aborts_when_file_cannot_be_opened EvenNumberFilter
           [print_observer; count_observer] main_store sample_fs "missing.txt"
           eq_refl).
Defined.

(** *** [main] *)

Section Main.

Lemma starts_with_GT filter_arg :
  starts_with filter_arg "GT" = true ->
  filter_arg = "GT" +:+ string_drop 2 filter_arg.
Proof.
  unfold starts_with.
  destruct filter_arg as [|a [|b rest]]; cbn [String.prefix].
  - discriminate.
  - destruct (ascii_dec "G" a); discriminate.
  - destruct (ascii_dec "G" a) as [<- |]; [| discriminate].
    destruct (ascii_dec "T" b) as [<- |]; [reflexivity | discriminate].
Qed.

Lemma substr_GT filter_arg :
  starts_with filter_arg "GT" = true ->
  substr filter_arg 2 = Ok (string_drop 2 filter_arg).
Proof.
  intros HGT. rewrite (starts_with_GT _ HGT) at 1. reflexivity.
Qed.

Lemma starts_with_GT_app n : starts_with ("GT" +:+ n) "GT" = true.
Proof. destruct n; reflexivity. Qed.

(** [substr(2)] cannot throw behind the [starts_with] test. *)
Lemma split_filter_arg_GT filter_arg :
  starts_with filter_arg "GT" = true ->
  split_filter_arg filter_arg = Ok ("GT", string_drop 2 filter_arg).
Proof.
  intros HGT. unfold split_filter_arg. now rewrite HGT, substr_GT.
Qed.

Lemma split_filter_arg_other filter_arg :
  starts_with filter_arg "GT" = false ->
  split_filter_arg filter_arg = Ok (filter_arg, "").
Proof. intros HGT. unfold split_filter_arg. now rewrite HGT. Qed.

Lemma main_store_alive :
  registered_alive [print_observer; count_observer] main_store.
Proof. repeat constructor; eexists; reflexivity. Qed.

(** With a filter, [main] runs the processor and exits with 0. *)
Lemma main_processor_run fs filename filter :
  exists store' trace,
    run (main_processor filter) fs filename main_store
      = Some (Ok tt, store', trace) /\
    (fs filename = None -> trace = [could_not_open filename]).
Proof.
  destruct (fs filename) as [content|] eqn:Hfs.
  - destruct (run_calls (main_processor filter) fs filename main_store
                (omap token_number (extract content))
                (omap token_warning (extract content)))
      as (store' & trace & Hrun & _).
    + now apply FileReader_read_open.
    + apply main_store_alive.
    + exists store', trace. split; [assumption | discriminate].
  - exists main_store, [could_not_open filename].
    split; [now apply run_FileReader_closed | reflexivity].
Qed.

Lemma main_unfold fs program filter_arg filename rest filter_type filter_value :
  split_filter_arg filter_arg = Ok (filter_type, filter_value) ->
  main fs (program :: filter_arg :: filename :: rest) =
    match createFilter new_FilterFactory filter_type filter_value with
    | Throw e =>
        match exn_class e with
        | invalid_argument | out_of_range =>
            (Exit 1, [Print (Cerr ("Error: " +:+ what e +:+ nl))])
        | runtime_error => (Terminate e, [])
        end
    | Ok filter =>
        match run (main_processor filter) fs filename main_store with
        | None => (Undefined, [])
        | Some (Throw e, _, out) => (Terminate e, out)
        | Some (Ok _, _, out) => (Exit 0, out)
        end
    end.
Proof. intros Hsplit. unfold main. now rewrite Hsplit. Qed.

(** The factory accepts the valid filter arguments, and no other. *)
Lemma filter_arg_cases filter_arg :
  (valid_filter_spec filter_arg /\
   exists filter_type filter_value filter,
     split_filter_arg filter_arg = Ok (filter_type, filter_value) /\
     createFilter new_FilterFactory filter_type filter_value = Ok filter) \/
  (~ valid_filter_spec filter_arg /\
   exists filter_type filter_value e,
     split_filter_arg filter_arg = Ok (filter_type, filter_value) /\
     createFilter new_FilterFactory filter_type filter_value = Throw e /\
     exn_class e <> runtime_error).
Proof.
  destruct (starts_with filter_arg "GT") eqn:HGT.
  - pose proof (split_filter_arg_GT _ HGT) as Hsplit.
    pose proof (createFilter_GT (string_drop 2 filter_arg)) as Hcreate.
    assert (Hnot : (forall w, stoi (string_drop 2 filter_arg) <> stoi_ok w) ->
                   ~ valid_filter_spec filter_arg).
    { intros Hs [-> | [-> | (n & v & -> & Hv)]];
        [discriminate HGT | discriminate HGT |].
      apply stoi_ok_iff in Hv. now apply (Hs v). }
    unfold create_GT in Hcreate.
    destruct (stoi (string_drop 2 filter_arg)) as [v | |] eqn:Hs.
    + left. split; [| eauto 6].
      right; right. exists (string_drop 2 filter_arg), v.
      split; [now apply starts_with_GT | now apply stoi_ok_iff].
    + right. split; [apply Hnot; discriminate |].
      do 3 eexists. split; [eassumption |]. split; [eassumption | discriminate].
    + right. split; [apply Hnot; discriminate |].
      do 3 eexists. split; [eassumption |]. split; [eassumption | discriminate].
  - pose proof (split_filter_arg_other _ HGT) as Hsplit.
    destruct (decide (filter_arg = "EVEN")) as [-> | Heven].
    { left. split; [now left |]. do 3 eexists.
      split; [eassumption | apply createFilter_EVEN]. }
    destruct (decide (filter_arg = "ODD")) as [-> | Hodd].
    { left. split; [now right; left |]. do 3 eexists.
      split; [eassumption | apply createFilter_ODD]. }
    right. split.
    + intros [-> | [-> | (n & v & -> & _)]]; [congruence | congruence |].
      rewrite starts_with_GT_app in HGT. discriminate.
    + do 3 eexists. split; [eassumption |].
      split; [apply createFilter_unknown | discriminate].
      apply registry_names. repeat split; [assumption | assumption |].
      intros ->. discriminate HGT.
Qed.


End Main.




(** C10. A first argument that begins with GT goes to the GT entry of
    the factory, with the characters after GT as its argument, and is
    never answered with the unknown-filter-type error. The argument GT
    alone gives the empty threshold text: [main] prints the
    invalid-argument error of the GT entry and exits with 1. *)
Theorem main_routes_GT_prefix fs program filter_arg filename rest :
  starts_with filter_arg "GT" = true ->
  filter_arg = "GT" +:+ string_drop 2 filter_arg /\
  split_filter_arg filter_arg = Ok ("GT", string_drop 2 filter_arg) /\
  (forall e,
     createFilter new_FilterFactory "GT" (string_drop 2 filter_arg) = Throw e ->
     main fs (program :: filter_arg :: filename :: rest) =
       (Exit 1, [Print (Cerr ("Error: " +:+ what e +:+ nl))]) /\
     (what e = "Invalid argument for GT filter: " +:+ string_drop 2 filter_arg \/
      what e = "Argument out of range for GT filter: " +:+ string_drop 2 filter_arg)) /\
  (forall filter,
     createFilter new_FilterFactory "GT" (string_drop 2 filter_arg) = Ok filter ->
     fst (main fs (program :: filter_arg :: filename :: rest)) = Exit 0) /\
  (forall name,
     main fs (program :: filter_arg :: filename :: rest) <>
     (Exit 1, [Print (Cerr ("Error: Unknown filter type: " +:+ name +:+ nl))])) /\
  split_filter_arg "GT" = Ok ("GT", "") /\
  main fs (program :: "GT" :: filename :: rest) =
    (Exit 1, [Print (Cerr ("Error: Invalid argument for GT filter: " +:+ nl))]).
Proof.
  intros HGT.
  pose proof (main_unfold fs program _ filename rest _ _
                (split_filter_arg_GT _ HGT)) as Hmain.
  split; [now apply starts_with_GT |].
  split; [now apply split_filter_arg_GT |].
  rewrite createFilter_GT in *. unfold create_GT in *.
  destruct (stoi (string_drop 2 filter_arg)) as [v | |];
    cbn [exn_class what] in Hmain.
  - destruct (main_processor_run fs filename (GreaterThanFilter v))
      as (store' & trace & Hrun & _).
    rewrite Hrun in Hmain. rewrite Hmain.
    split; [discriminate |]. split; [reflexivity |].
    split; [discriminate |]. split; reflexivity.
  - rewrite Hmain.
    split; [intros e [= <-]; split; [reflexivity | now left] |].
    split; [discriminate |].
    split; [intros name; cbn [what]; discriminate |]. split; reflexivity.
  - rewrite Hmain.
    split; [intros e [= <-]; split; [reflexivity | now right] |].
    split; [discriminate |].
    split; [intros name; cbn [what]; discriminate |]. split; reflexivity.
Qed.

Lemma main_routes_GT_prefix_witness :
  split_filter_arg "GTX" = Ok ("GT", "X") /\
  forall name,
    main sample_fs ["pipeline"; "GTX"; "numbers.txt"] <>
    (Exit 1, [Print (Cerr ("Error: Unknown filter type: " +:+ name +:+ nl))]).
Proof.
  pose proof (main_routes_GT_prefix sample_fs "pipeline" "GTX" "numbers.txt" []
                eq_refl) as (_ & Hsplit & _ & _ & Hknown & _).
  split; [exact Hsplit | exact Hknown].
Defined.

(** The end-to-end example of the specification: with the filter GT0 the
    numbers 2, 3, 4 and 5 are kept, [x] is skipped with a warning, -2 is
    filtered out, and the count is 4. *)
Example main_end_to_end :
  main sample_fs ["pipeline"; "GT0"; "numbers.txt"] =
    (Exit 0,
     [Print (invalid_number_warning "x");
      Call_on_number 0 2; Print (Cout ("Read and filtered number: 2" +:+ nl));
      Call_on_number 1 2;
      Call_on_number 0 3; Print (Cout ("Read and filtered number: 3" +:+ nl));
      Call_on_number 1 3;
      Call_on_number 0 4; Print (Cout ("Read and filtered number: 4" +:+ nl));
      Call_on_number 1 4;
      Call_on_number 0 5; Print (Cout ("Read and filtered number: 5" +:+ nl));
      Call_on_number 1 5;
      Call_on_finished 0; Print (Cout ("Number processing finished." +:+ nl));
      Call_on_finished 1;
      Print (Cout ("Total number of filtered numbers: 4" +:+ nl))]).
Proof. vm_compute. reflexivity. Qed.

End PipelineFacts.

(** ** Facts about the logger *)

Module LoggerFacts.
Import LoggerDemo.

Section Ownership.

Lemma new_Logger_owns_one_sink : owns_one_sink (fst new_Logger).
Proof. eexists _, ConsoleSink. split; reflexivity. Qed.

(** The assignment to [sink_]: the new object is built while the old
    one is alive, so at another address, and the old one is deleted. *)
Lemma assign_sink_owned env sink type st :
  owns_one_sink st ->
  exists old new previous,
    assign_sink env sink type st =
      Some (mk_State (mk_Logger (Some new) type) {[new := sink]},
            [Construct new; Destroy old] ++ delete_sink env previous) /\
    sink_ (logger st) = Some old /\ heap st = {[old := previous]} /\ new <> old.
Proof.
  intros (old & sink0 & Hptr & Hheap).
  exists old, (fresh (dom (heap st))), sink0.
  assert (Hnew : fresh (dom (heap st)) <> old).
  { intros Heq. apply (is_fresh (dom (heap st))). rewrite Heq, Hheap.
    apply elem_of_dom. rewrite lookup_singleton_eq. by eexists. }
  split; [| split; [| split]; assumption].
  unfold assign_sink. rewrite Hptr.
  assert (Hold : heap st !! old = Some sink0)
    by (rewrite Hheap; apply lookup_singleton_eq).
  rewrite Hold. do 3 f_equal.
  rewrite delete_insert_ne by congruence.
  rewrite Hheap at 2. now rewrite delete_singleton_eq, insert_empty.
Qed.

(** What goes to the file is no other kind of event. *)
Lemma to_file_appends env text : Forall is_append (snd (to_file env text)).
Proof.
  unfold to_file. destruct (can_write env).
  - destruct text; repeat constructor.
  - destruct (on_failure env text) as [[|c written] kept]; repeat constructor.
Qed.

Lemma delete_sink_appends env sink : Forall is_append (delete_sink env sink).
Proof.
  destruct sink as [| [] failed [|c pending] |]; try constructor.
  apply to_file_appends.
Qed.

Lemma appends_object_events trace :
  Forall is_append trace -> object_events trace = [].
Proof.
  induction 1 as [|e trace He _ IH]; [reflexivity |].
  destruct e; try contradiction. exact IH.
Qed.

Lemma appends_not_sink_not_set trace :
  Forall is_append trace -> sink_not_set ∉ trace.
Proof.
  intros Hall Hin. rewrite Forall_forall in Hall. exact (Hall _ Hin).
Qed.

Lemma sink_of_new_FileSink env : sink_of_type FILE (fst (new_FileSink env)) = true.
Proof. unfold new_FileSink. now destruct (can_open env). Qed.

Lemma object_events_new_FileSink env : object_events (snd (new_FileSink env)) = [].
Proof. unfold new_FileSink. now destruct (can_open env). Qed.

Lemma new_FileSink_not_sink_not_set env :
  sink_not_set ∉ snd (new_FileSink env).
Proof.
  unfold new_FileSink. destruct (can_open env); cbn [snd].
  - apply not_elem_of_nil.
  - apply not_elem_of_cons; split; [discriminate | apply not_elem_of_nil].
Qed.

Lemma object_events_app t1 t2 :
  object_events (t1 ++ t2) = object_events t1 ++ object_events t2.
Proof. apply List.filter_app. Qed.

(** [set_sink] with one of the three named kinds. *)
Lemma set_sink_recognized env type st :
  owns_one_sink st -> recognized type ->
  exists st' trace old new sink,
    set_sink env type st = Some (st', trace) /\
    sink_ (logger st) = Some old /\
    logger st' = mk_Logger (Some new) type /\
    heap st' = {[new := sink]} /\
    new <> old /\
    sink_of_type type sink = true /\
    object_events trace = [Construct new; Destroy old] /\
    sink_not_set ∉ trace.
Proof.
  assert (Hexchange : forall old new previous notice,
            object_events ([Construct new; Destroy old]
                           ++ delete_sink env previous ++ [Cout notice])
            = [Construct new; Destroy old] /\
            sink_not_set ∉ ([Construct new; Destroy old]
                            ++ delete_sink env previous) ++ [Cout notice]).
  { intros old new previous notice. split.
    - rewrite !object_events_app.
      rewrite (appends_object_events _ (delete_sink_appends env previous)).
      reflexivity.
    - apply not_elem_of_app; split.
      + apply not_elem_of_cons; split; [discriminate |].
        apply not_elem_of_cons; split; [discriminate |].
        apply appends_not_sink_not_set, delete_sink_appends.
      + apply not_elem_of_cons; split; [discriminate | apply not_elem_of_nil]. }
  intros Hown [-> | [-> | ->]]; unfold set_sink; cbn [Z.eqb CONSOLE FILE NONE].
  - destruct (assign_sink_owned env ConsoleSink CONSOLE st Hown)
      as (old & new & previous & Ha & Hold & _ & Hne).
    rewrite Ha. do 3 eexists. exists new, ConsoleSink.
    destruct (Hexchange old new previous ("Logging redirected to console." +:+ nl))
      as [Hobj Hnot].
    repeat split; try eassumption; try reflexivity.
  - pose proof (sink_of_new_FileSink env) as Hkind.
    pose proof (object_events_new_FileSink env) as Hbuilt.
    pose proof (new_FileSink_not_sink_not_set env) as Hnot'.
    destruct (new_FileSink env) as [sink built]; cbn [fst snd] in *.
    destruct (assign_sink_owned env sink FILE st Hown)
      as (old & new & previous & Ha & Hold & _ & Hne).
    rewrite Ha. do 3 eexists. exists new, sink.
    destruct (Hexchange old new previous
                ("Logging redirected to file app.log." +:+ nl)) as [Hobj Hnot].
    repeat split; try eassumption; try reflexivity.
    + rewrite object_events_app, Hbuilt, <- app_assoc. exact Hobj.
    + apply not_elem_of_app; split; assumption.
  - destruct (assign_sink_owned env NullSink NONE st Hown)
      as (old & new & previous & Ha & Hold & _ & Hne).
    rewrite Ha. do 3 eexists. exists new, NullSink.
    destruct (Hexchange old new previous ("Logging disabled." +:+ nl))
      as [Hobj Hnot].
    repeat split; try eassumption; try reflexivity.
Qed.

(** [set_sink] with any other value of the type. *)
Lemma set_sink_unrecognized env type st :
  ~ recognized type ->
  set_sink env type st =
    Some (st, [Cerr ("Unknown sink type. Previous sink remains." +:+ nl)]).
Proof.
  intros Hno. unfold set_sink, recognized in *.
  destruct (type =? CONSOLE) eqn:H0; [apply Z.eqb_eq in H0; tauto |].
  destruct (type =? FILE) eqn:H1; [apply Z.eqb_eq in H1; tauto |].
  destruct (type =? NONE) eqn:H2; [apply Z.eqb_eq in H2; tauto |].
  reflexivity.
Qed.

Lemma write_not_sink_not_set env sink msg :
  sink_not_set ∉ snd (write env sink msg).
Proof.
  unfold write.
  destruct sink as [| [] [] pending |]; cbn [snd];
    try apply not_elem_of_nil;
    try (apply not_elem_of_cons; split; [discriminate | apply not_elem_of_nil]).
  pose proof (to_file_appends env (pending +:+ msg +:+ nl)) as Hfile.
  destruct (to_file env (pending +:+ msg +:+ nl)) as [[[] kept] out];
    cbn [snd] in *.
  - now apply appends_not_sink_not_set.
  - apply not_elem_of_app; split; [now apply appends_not_sink_not_set |].
    apply not_elem_of_cons; split; [discriminate | apply not_elem_of_nil].
Qed.

(** [log] on a logger that owns its sink: the sink is written to. *)
Lemma log_owned env msg location st :
  owns_one_sink st ->
  exists address sink,
    sink_ (logger st) = Some address /\
    heap st = {[address := sink]} /\
    log env msg location st =
      Some (mk_State (logger st)
              {[address := fst (write env sink (formatLogMessage msg location))]},
            Call_write address (formatLogMessage msg location)
            :: snd (write env sink (formatLogMessage msg location))).
Proof.
  intros (address & sink & Hptr & Hheap). exists address, sink.
  split; [assumption |]. split; [assumption |].
  unfold log. rewrite Hptr, Hheap, lookup_singleton_eq.
  destruct (write env sink (formatLogMessage msg location)) as [sink' out].
  cbn [fst snd]. now rewrite insert_singleton_eq.
Qed.

(** Every call keeps the ownership and stays off the null branch. *)
Lemma step_owned op st :
  owns_one_sink st ->
  exists st' trace,
    step op st = Some (st', trace) /\ owns_one_sink st' /\
    sink_not_set ∉ trace.
Proof.
  intros Hown. destruct op as [env type | env msg location]; cbn [step].
  - destruct (decide (recognized type)) as [Hrec | Hno].
    + destruct (set_sink_recognized env type st Hown Hrec)
        as (st' & trace & old & new & sink & Hs & _ & Hl & Hh & _ & _ & _ & Ht).
      exists st', trace. split; [assumption |]. split; [| assumption].
      exists new, sink. rewrite Hl. auto.
    + rewrite (set_sink_unrecognized env type st Hno).
      exists st, [Cerr ("Unknown sink type. Previous sink remains." +:+ nl)].
      split; [reflexivity |]. split; [assumption |].
      apply not_elem_of_cons; split; [discriminate | apply not_elem_of_nil].
  - destruct (log_owned env msg location st Hown)
      as (address & sink & Hptr & Hheap & Hlog).
    rewrite Hlog. do 2 eexists. split; [reflexivity |]. split.
    + eexists address, _. cbn [logger heap]. auto.
    + apply not_elem_of_cons; split; [discriminate |].
      apply write_not_sink_not_set.
Qed.

Lemma object_events_write env sink msg :
  object_events (snd (write env sink msg)) = [].
Proof.
  unfold write. destruct sink as [| [] [] pending |]; cbn [snd];
    try reflexivity.
  pose proof (to_file_appends env (pending +:+ msg +:+ nl)) as Hfile.
  destruct (to_file env (pending +:+ msg +:+ nl)) as [[[] kept] out];
    cbn [snd] in *.
  - now apply appends_object_events.
  - rewrite object_events_app, (appends_object_events _ Hfile). reflexivity.
Qed.

Lemma reachable_owns_one_sink st : reachable st -> owns_one_sink st.
Proof.
  induction 1 as [| op st st' out _ IH Hstep].
  - apply new_Logger_owns_one_sink.
  - destruct (step_owned op st IH) as (st1 & trace & Hs & Hown & _).
    congruence.
Qed.

Lemma owns_one_sink_live st :
  owns_one_sink st -> live_sinks st = 1%nat /\ is_Some (owned_sink st).
Proof.
  intros (address & sink & Hptr & Hheap). unfold live_sinks, owned_sink.
  rewrite Hptr, Hheap, map_size_singleton, lookup_singleton_eq.
  split; [reflexivity | by eexists].
Qed.

(** No sequence of calls is undefined or reaches the null branch. *)
Lemma steps_owned ops st :
  owns_one_sink st ->
  exists st' trace,
    steps ops st = Some (st', trace) /\ owns_one_sink st' /\
    sink_not_set ∉ trace.
Proof.
  revert st; induction ops as [|op ops IH]; intros st Hown.
  - exists st, []. split; [reflexivity |]. split; [assumption |].
    apply not_elem_of_nil.
  - destruct (step_owned op st Hown) as (st1 & out1 & Hs & Hown1 & Hno1).
    destruct (IH st1 Hown1) as (st2 & out2 & Hss & Hown2 & Hno2).
    exists st2, (out1 ++ out2). cbn [steps]. rewrite Hs, Hss.
    split; [reflexivity |]. split; [assumption |].
    now apply not_elem_of_app.
Qed.

End Ownership.

(** C8. The constructed logger owns one sink, a console sink, and the
    store holds no other. After any calls of [set_sink] and [log] the
    logger still owns exactly one sink and [sink_] is not null. A
    [set_sink] with one of the three named kinds builds one new sink of
    that kind at another address and deletes the previous one, without
    writing to either, so the store holds the new sink only when it is
    first used. [log] writes to the one sink owned, and no sequence of
    calls prints the error of the null branch. *)
Theorem logger_always_owns_one_sink :
  (owned_sink (fst new_Logger) = Some ConsoleSink /\
   live_sinks (fst new_Logger) = 1%nat /\
   get_current_sink_type (fst new_Logger) = CONSOLE) /\
  (forall st, reachable st ->
     owns_one_sink st /\ live_sinks st = 1%nat /\ is_Some (owned_sink st)) /\
  (forall st env type, reachable st -> recognized type ->
     exists st' trace old new sink,
       set_sink env type st = Some (st', trace) /\
       sink_ (logger st) = Some old /\
       logger st' = mk_Logger (Some new) type /\
       heap st' = {[new := sink]} /\
       new <> old /\
       sink_of_type type sink = true /\
       object_events trace = [Construct new; Destroy old]) /\
  (forall st env msg location, reachable st ->
     exists st' trace address,
       log env msg location st = Some (st', trace) /\
       sink_ (logger st) = Some address /\
       dom (heap st) = {[address]} /\
       object_events trace = [Call_write address (formatLogMessage msg location)] /\
       sink_not_set ∉ trace) /\
  (forall ops, exists st' trace,
     steps ops (fst new_Logger) = Some (st', trace) /\
     owns_one_sink st' /\ sink_not_set ∉ trace).
Proof.
  split; [repeat split |].
  split; [| split; [| split]].
  - intros st Hreach. apply reachable_owns_one_sink in Hreach.
    split; [assumption | now apply owns_one_sink_live].
  - intros st env type Hreach%reachable_owns_one_sink Hrec.
    destruct (set_sink_recognized env type st Hreach Hrec)
      as (st' & trace & old & new & sink & H1 & H2 & H3 & H4 & H5 & H6 & H7 & _).
    exists st', trace, old, new, sink. auto 10.
  - intros st env msg location Hreach%reachable_owns_one_sink.
    destruct (log_owned env msg location st Hreach)
      as (address & sink & Hptr & Hheap & Hlog).
    do 2 eexists. exists address. split; [exact Hlog |].
    split; [assumption |]. split; [now rewrite Hheap, dom_singleton_L |].
    split.
    + change (Call_write address (formatLogMessage msg location)
              :: snd (write env sink (formatLogMessage msg location)))
        with ([Call_write address (formatLogMessage msg location)]
              ++ snd (write env sink (formatLogMessage msg location))).
      now rewrite object_events_app, object_events_write.
    + apply not_elem_of_cons; split; [discriminate |].
      apply write_not_sink_not_set.
  - intros ops. apply steps_owned, new_Logger_owns_one_sink.
Qed.

Lemma logger_always_owns_one_sink_witness :
  exists st' trace old new sink,
    set_sink sample_env FILE (fst new_Logger) = Some (st', trace) /\
    sink_ (logger (fst new_Logger)) = Some old /\
    logger st' = mk_Logger (Some new) FILE /\
    heap st' = {[new := sink]} /\
    new <> old /\
    sink_of_type FILE sink = true /\
    object_events trace = [Construct new; Destroy old].
Proof.
  apply (proj1 (proj2 (proj2 logger_always_owns_one_sink))).
  - apply reachable_new.
  - right; left; reflexivity.
Defined.

(** C9. [set_sink] with a value that is none of the three named kinds
    writes a warning to [cerr] and changes nothing: the logger has the
    sink object and the recorded sink type it had, and a [log] that
    follows does what it would have done before. *)
Theorem set_sink_unrecognized_keeps_state env type st :
  ~ recognized type ->
  set_sink env type st =
    Some (st, [Cerr ("Unknown sink type. Previous sink remains." +:+ nl)]) /\
  (forall st' trace, set_sink env type st = Some (st', trace) ->
     sink_ (logger st') = sink_ (logger st) /\
     owned_sink st' = owned_sink st /\
     heap st' = heap st /\
     get_current_sink_type st' = get_current_sink_type st /\
     forall env' msg location,
       log env' msg location st' = log env' msg location st).
Proof.
  intros Hno. pose proof (set_sink_unrecognized env type st Hno) as Hset.
  split; [assumption |].
  intros st' trace Hset'. rewrite Hset in Hset'.
  injection Hset' as <- _. auto.
Qed.

Lemma set_sink_unrecognized_keeps_state_witness :
  set_sink sample_env 7 (fst new_Logger) =
    Some (fst new_Logger, [Cerr ("Unknown sink type. Previous sink remains." +:+ nl)]).
Proof.
  apply (set_sink_unrecognized_keeps_state sample_env 7 (fst new_Logger)).
  intros [H | [H | H]]; discriminate H.
Defined.

End LoggerFacts.

(** ** Further facts about the number pipeline *)

Module PipelineExtras.
Import Pipeline PipelineFacts.

(** *** Printing and reading numbers *)

Section Decimal.

Import DecimalPos.

Lemma string_of_uint_digits d :
  string_forallb isdigit (NilEmpty.string_of_uint d) = true.
Proof.
  induction d; cbn [NilEmpty.string_of_uint string_forallb];
    rewrite ?IHd; reflexivity.
Qed.

Lemma string_of_uint_length d :
  Z.of_nat (String.length (NilEmpty.string_of_uint d)) = Z.of_N (Unsigned.usize d).
Proof.
  induction d; cbn [NilEmpty.string_of_uint String.length Unsigned.usize];
    rewrite ?Nat2Z.inj_succ, ?N2Z.inj_succ, ?IHd; reflexivity.
Qed.

(** The digits [operator<<] writes denote the number they come from. *)
Lemma decimal_string_of_uint d :
  decimal (NilEmpty.string_of_uint d) = Z.of_N (Unsigned.of_lu (Decimal.rev d)).
Proof.
  induction d; [reflexivity | ..];
    unfold Decimal.rev; cbn [Decimal.revapp]; rewrite Unsigned.of_lu_revapp;
    fold (Decimal.rev d);
    rewrite N2Z.inj_add, N2Z.inj_mul, N2Z.inj_pow, <- IHd, <- string_of_uint_length;
    cbn [NilEmpty.string_of_uint decimal];
    match goal with
    | |- context [digit_value ?c] =>
        let v := eval vm_compute in (digit_value c) in
        change (digit_value c) with v
    end;
    cbn [default Unsigned.of_lu]; unfold id;
    rewrite ?N.mul_0_r, ?N.add_0_r; cbn [Z.of_N]; ring.
Qed.

Lemma string_of_uint_nonempty d :
  d <> Decimal.Nil -> NilEmpty.string_of_uint d <> "".
Proof. destruct d; [congruence | discriminate ..]. Qed.

Lemma to_string_numeral v : integer_literal (to_string v) v.
Proof.
  unfold to_string. destruct v as [| p | p]; cbn [Z.to_int NilEmpty.string_of_int].
  - exists "", "0". repeat split; unfold is_sign; auto; discriminate.
  - exists "", (NilEmpty.string_of_uint (Pos.to_uint p)).
    split; [reflexivity |]. split; [unfold is_sign; auto |].
    split; [apply string_of_uint_nonempty, Unsigned.to_uint_nonnil |].
    split; [apply string_of_uint_digits |].
    unfold signed; cbn [String.eqb].
    now rewrite decimal_string_of_uint, <- Unsigned.of_uint_alt, Unsigned.of_to.
  - exists "-", (NilEmpty.string_of_uint (Pos.to_uint p)).
    split; [reflexivity |]. split; [unfold is_sign; auto |].
    split; [apply string_of_uint_nonempty, Unsigned.to_uint_nonnil |].
    split; [apply string_of_uint_digits |].
    unfold signed.
    now rewrite decimal_string_of_uint, <- Unsigned.of_uint_alt, Unsigned.of_to.
Qed.

End Decimal.

Lemma token_number_to_string (v : Z) :
  is_int v -> token_number (to_string v) = Some v /\ token_warning (to_string v) = None.
Proof.
  intros Hr.
  assert (Hs : stoi (to_string v) = stoi_ok v).
  { apply stoi_ok_iff. split; [| assumption].
    apply integer_literal_numeral_prefix, to_string_numeral. }
  unfold token_number, token_warning. now rewrite Hs.
Qed.

(** X1. [stoi] reads back what [operator<<] writes: the decimal
    representation of an [int] converts to that [int], and that of a
    number outside the range of [int] is out of range. *)
Theorem stoi_to_string (v : Z) :
  (is_int v -> stoi (to_string v) = stoi_ok v) /\
  (~ is_int v -> stoi (to_string v) = stoi_out_of_range).
Proof.
  pose proof (integer_literal_numeral_prefix _ _ (to_string_numeral v)) as Hv.
  split; intros Hr.
  - now apply stoi_ok_iff.
  - apply stoi_out_of_range_iff. eauto.
Qed.

Lemma stoi_to_string_witness :
  stoi (to_string (-2147483648)) = stoi_ok (-2147483648) /\
  stoi (to_string 2147483648) = stoi_out_of_range.
Proof.
  split.
  - apply (proj1 (stoi_to_string (-2147483648))).
    unfold is_int, INT_MIN, INT_MAX. lia.
  - apply (proj2 (stoi_to_string 2147483648)).
    unfold is_int, INT_MIN, INT_MAX. lia.
Defined.

(** *** Tokens *)

Section Tokens.

Lemma no_space_app a b : no_space (a +:+ b) = no_space a && no_space b.
Proof.
  unfold no_space. induction a as [|c a IH]; [reflexivity |].
  cbn [String.append string_forallb]. now rewrite IH, andb_assoc.
Qed.

Lemma app_empty_inv (a b : string) : a +:+ b = "" -> a = "" /\ b = "".
Proof. destruct a; [auto | discriminate]. Qed.

(** A text without white space is one token, together with the token
    being extracted. *)
Lemma extract_from_no_space tok cur :
  no_space tok = true ->
  extract_from tok cur = match cur +:+ tok with "" => [] | s => [s] end.
Proof.
  revert cur; induction tok as [|c tok IH]; intros cur Hno.
  - rewrite string_app_empty_r. now destruct cur.
  - unfold no_space in Hno; cbn [string_forallb] in Hno.
    apply andb_prop in Hno as [Hc Hno]. apply negb_true_iff in Hc.
    cbn [extract_from]. rewrite Hc, (IH _ Hno), string_app_assoc. reflexivity.
Qed.

Lemma extract_from_tokens s cur :
  no_space cur = true ->
  Forall (fun tok => tok <> "" /\ no_space tok = true) (extract_from s cur).
Proof.
  revert cur; induction s as [|c s IH]; intros cur Hcur; cbn [extract_from].
  - destruct cur; [constructor |].
    constructor; [split; [discriminate | assumption] | constructor].
  - destruct (isspace c) eqn:Hc.
    + destruct cur; [now apply IH |].
      constructor; [split; [discriminate | assumption] | now apply IH].
    + apply IH. rewrite no_space_app, Hcur. unfold no_space.
      cbn [string_forallb]. now rewrite Hc.
Qed.

Lemma extract_white_space s :
  string_forallb isspace s = true -> extract s = [].
Proof.
  unfold extract. induction s as [|c s IH]; [reflexivity |].
  cbn [string_forallb extract_from]. intros [Hc Hs]%andb_prop.
  rewrite Hc. auto.
Qed.

Lemma integer_literal_token tok v :
  integer_literal tok v -> tok <> "" /\ no_space tok = true.
Proof.
  intros (sgn & ds & -> & Hsgn & Hne & Hds & _). split.
  - intros [_ Hds']%app_empty_inv. contradiction.
  - rewrite no_space_app.
    assert (Hsgn' : no_space sgn = true)
      by (destruct Hsgn as [-> | [-> | ->]]; reflexivity).
    rewrite Hsgn'. cbn [andb]. clear -Hds. unfold no_space.
    induction ds as [|c ds IH]; [reflexivity |].
    cbn [string_forallb] in *. apply andb_prop in Hds as [Hc Hds].
    rewrite (isdigit_not_space _ Hc), (IH Hds). reflexivity.
Qed.

Lemma extract_number_lines numbers :
  extract (number_lines numbers) = map to_string numbers.
Proof.
  induction numbers as [|v numbers IH]; [reflexivity |].
  cbn [number_lines map]. unfold extract, nl.
  cbn [String.append]. rewrite extract_from_space by reflexivity.
  destruct (integer_literal_token _ _ (to_string_numeral v)) as [Hne Hno].
  rewrite (extract_from_no_space _ "" Hno). cbn [String.append].
  fold (extract (number_lines numbers)). rewrite IH.
  destruct (to_string v); [congruence | reflexivity].
Qed.

Lemma omap_token_number_to_string numbers :
  Forall is_int numbers ->
  omap token_number (map to_string numbers) = numbers /\
  omap token_warning (map to_string numbers) = [].
Proof.
  induction 1 as [|v numbers Hv _ [IHn IHw]]; [split; reflexivity |].
  cbn [map omap list_omap].
  destruct (token_number_to_string v Hv) as [-> ->]. cbn.
  fold (omap token_number (map to_string numbers)).
  fold (omap token_warning (map to_string numbers)).
  rewrite IHn, IHw. split; reflexivity.
Qed.

End Tokens.

(** X2. The tokens [read] hands to [stoi] are not empty and hold no
    white space, so [stoi] has no white space to skip in them. *)
Theorem extract_tokens (line : string) :
  Forall (fun tok => tok <> "" /\ no_space tok = true /\ skip_space tok = tok)
    (extract line).
Proof.
  eapply Forall_impl; [now apply (extract_from_tokens line "") |].
  intros tok [Hne Hno]; cbn beta. split; [assumption |]. split; [assumption |].
  destruct tok as [|c tok]; [reflexivity |].
  unfold no_space in Hno; cbn [string_forallb] in Hno.
  apply andb_prop in Hno as [Hc _]. apply negb_true_iff in Hc.
  cbn [skip_space]. now rewrite Hc.
Qed.

(** X3. A file that holds nothing, or white space only, is read as the
    empty sequence, without any warning. *)
Theorem read_white_space fs filename content :
  fs filename = Some content ->
  string_forallb isspace content = true ->
  FileReader_read fs filename = (Ok [], []).
Proof.
  intros Hopen Hws. rewrite (FileReader_read_open _ _ _ Hopen).
  now rewrite extract_white_space.
Qed.

Lemma read_white_space_witness :
  FileReader_read (fun _ => Some (" " +:+ nl +:+ nl)) "blank.txt" = (Ok [], []).
Proof.
  exact (read_white_space (fun _ => Some (" " +:+ nl +:+ nl)) "blank.txt"
           (" " +:+ nl +:+ nl) eq_refl eq_refl).
Defined.

(** X4. Every number [read] returns is in the range of [int]. *)
Theorem read_numbers_in_range fs filename numbers out :
  FileReader_read fs filename = (Ok numbers, out) ->
  Forall is_int numbers.
Proof.
  unfold FileReader_read. destruct (fs filename) as [content|]; [| discriminate].
  rewrite fold_read_line. intros [= <- _]. cbn [app].
  apply Forall_forall. intros v [tok [_ Hv]]%list_elem_of_omap.
  now apply token_number_iff in Hv.
Qed.

Lemma read_numbers_in_range_witness :
  Forall is_int [2; 3; 4; 5; -2].
Proof.
  exact (read_numbers_in_range sample_fs "numbers.txt" [2; 3; 4; 5; -2]
           [invalid_number_warning "x"] eq_refl).
Defined.

(** X5. Two texts joined by a white-space character are read as the
    first and then the second: the numbers of the one follow those of
    the other, and so do the warnings. *)
Theorem read_joined fs f1 f2 f c1 c2 sep :
  fs f1 = Some c1 -> fs f2 = Some c2 ->
  fs f = Some (c1 +:+ String sep c2) -> isspace sep = true ->
  exists numbers1 out1 numbers2 out2,
    FileReader_read fs f1 = (Ok numbers1, out1) /\
    FileReader_read fs f2 = (Ok numbers2, out2) /\
    FileReader_read fs f = (Ok (numbers1 ++ numbers2), out1 ++ out2).
Proof.
  intros H1 H2 H Hsep.
  rewrite (FileReader_read_open _ _ _ H1), (FileReader_read_open _ _ _ H2),
    (FileReader_read_open _ _ _ H).
  do 4 eexists. split; [reflexivity |]. split; [reflexivity |].
  unfold extract at 1 2. rewrite extract_from_space by assumption.
  now rewrite !omap_app.
Qed.

Lemma read_joined_witness :
  exists numbers1 out1 numbers2 out2,
    FileReader_read joined_fs "a.txt" = (Ok numbers1, out1) /\
    FileReader_read joined_fs "b.txt" = (Ok numbers2, out2) /\
    FileReader_read joined_fs "ab.txt" = (Ok (numbers1 ++ numbers2), out1 ++ out2).
Proof.
  exact (read_joined joined_fs "a.txt" "b.txt" "ab.txt" "1 x" "y 2" " "
           eq_refl eq_refl eq_refl eq_refl).
Defined.

(** X6. A text that holds the decimal representation of each number of
    a sequence of [int]s, one per line, is read back as that sequence,
    without any warning. *)
Theorem read_number_lines fs filename numbers :
  Forall is_int numbers ->
  fs filename = Some (number_lines numbers) ->
  FileReader_read fs filename = (Ok numbers, []).
Proof.
  intros Hint Hopen. rewrite (FileReader_read_open _ _ _ Hopen).
  rewrite extract_number_lines.
  destruct (omap_token_number_to_string numbers Hint) as [-> ->]. reflexivity.
Qed.

Lemma read_number_lines_witness :
  FileReader_read (fun _ => Some (number_lines [7; -12; 0])) "written.txt"
  = (Ok [7; -12; 0], []).
Proof.
  apply (read_number_lines (fun _ => Some (number_lines [7; -12; 0])) "written.txt").
  - repeat constructor; unfold INT_MIN, INT_MAX; lia.
  - reflexivity.
Defined.

(** *** The factory *)

(** X7. The registry is open: after [registerFilter (name, creator)],
    [createFilter] builds through [creator] for [name], also when
    [name] was registered before, and does for every other name what it
    did. *)
Theorem registerFilter_createFilter factory name creator filterType filterArg :
  createFilter (registerFilter name creator factory) filterType filterArg =
    if decide (filterType = name) then creator filterArg
    else createFilter factory filterType filterArg.
Proof.
  unfold createFilter, registerFilter; cbn [creators_].
  rewrite lookup_insert. destruct (decide (name = filterType)) as [-> | Hne].
  - now rewrite decide_True.
  - rewrite decide_False by congruence. reflexivity.
Qed.

(** *** The processor *)

Section Frame.
Context {R F O : Type}.
Context `{!INumberReader R, !INumberFilter F, !INumberObserver O}.

Implicit Types (np : NumberProcessor R F) (store : gmap nat O).

Lemma notify_frame call mark observers store store' trace :
  notify call mark observers store = Some (store', trace) ->
  dom store' = dom store /\
  forall p, p ∉ observers -> store' !! p = store !! p.
Proof.
  revert store store' trace.
  induction observers as [|q rest IH]; intros store store' trace; cbn [notify].
  - intros [= <- _]. auto.
  - destruct (store !! q) as [o|] eqn:Ho; [| discriminate].
    destruct (call o) as [o' out].
    destruct (notify call mark rest (<[q := o']> store))
      as [[store1 trace1]|] eqn:Hn; [| discriminate].
    intros [= <- _]. destruct (IH _ _ _ Hn) as [Hdom Hframe]. split.
    + rewrite Hdom. apply dom_insert_lookup_L. by eexists.
    + intros p [Hpq Hp]%not_elem_of_cons.
      rewrite (Hframe p Hp). now apply lookup_insert_ne.
Qed.

Lemma process_frame np numbers store store' trace :
  process np numbers store = Some (store', trace) ->
  dom store' = dom store /\
  forall p, p ∉ observers_ np -> store' !! p = store !! p.
Proof.
  revert store store' trace.
  induction numbers as [|number rest IH]; intros store store' trace; cbn [process].
  - intros [= <- _]. auto.
  - destruct (keep (filter_ np) number); [| apply IH].
    destruct (notifyObservers np number store) as [[store1 trace1]|] eqn:Hn;
      [| discriminate].
    destruct (process np rest store1) as [[store2 trace2]|] eqn:Hp;
      [| discriminate].
    intros [= <- _]. destruct (notify_frame _ _ _ _ _ _ Hn) as [Hd1 Hf1].
    destruct (IH _ _ _ Hp) as [Hd2 Hf2]. split; [congruence |].
    intros p Hp'. now rewrite (Hf2 p Hp'), (Hf1 p Hp').
Qed.

(** X8. A run creates and deletes no observer, and leaves every object
    of the store that is not registered as it was. *)
Theorem run_frame np fs filename store r store' trace :
  run np fs filename store = Some (r, store', trace) ->
  dom store' = dom store /\
  forall p, p ∉ observers_ np -> store' !! p = store !! p.
Proof.
  unfold run. destruct (read (reader_ np) fs filename) as [[numbers | e] out].
  - destruct (process np numbers store) as [[store1 trace1]|] eqn:Hp;
      [| discriminate].
    destruct (notifyFinished np store1) as [[store2 trace2]|] eqn:Hn;
      [| discriminate].
    intros [= _ <- _]. destruct (process_frame _ _ _ _ _ Hp) as [Hd1 Hf1].
    destruct (notify_frame _ _ _ _ _ _ Hn) as [Hd2 Hf2]. split; [congruence |].
    intros p Hp'. now rewrite (Hf2 p Hp'), (Hf1 p Hp').
  - destruct (exn_class e); intros [= _ <- _]; auto.
Qed.

End Frame.

Lemma run_frame_witness :
  exists r store' trace,
    run (main_processor (GreaterThanFilter 0)) sample_fs "numbers.txt"
      (<[5%nat := CountObserver 9]> main_store) = Some (r, store', trace) /\
    store' !! 5%nat = Some (CountObserver 9).
Proof.
  destruct (run (main_processor (GreaterThanFilter 0)) sample_fs "numbers.txt"
              (<[5%nat := CountObserver 9]> main_store))
    as [[[r store'] trace]|] eqn:Hrun.
  - exists r, store', trace. split; [reflexivity |].
    rewrite (proj2 (run_frame _ _ _ _ _ _ _ Hrun) 5%nat); [reflexivity |].
    intros Hin. apply elem_of_cons in Hin as [Hin | Hin]; [discriminate |].
    apply elem_of_cons in Hin as [Hin | Hin]; [discriminate |].
    now apply elem_of_nil in Hin.
  - vm_compute in Hrun. discriminate.
Defined.

(** *** The observers of [main] *)

Section Counting.

Lemma counting_store_print count :
  counting_store count !! print_observer = Some PrintObserver.
Proof. reflexivity. Qed.

Lemma counting_store_count count :
  counting_store count !! count_observer = Some (CountObserver count).
Proof. reflexivity. Qed.

Lemma counting_store_step count count' :
  <[count_observer := CountObserver count']>
    (<[print_observer := PrintObserver]> (counting_store count))
  = counting_store count'.
Proof.
  unfold counting_store, print_observer, count_observer.
  rewrite (insert_insert_ne _ 0%nat 1%nat) by discriminate.
  now rewrite !insert_insert_eq.
Qed.

Lemma int_succ_below count : count < INT_MAX -> int_succ count = count + 1.
Proof.
  intros Hlt. unfold int_succ.
  destruct (count =? INT_MAX) eqn:Heq; [apply Z.eqb_eq in Heq; lia | reflexivity].
Qed.

Lemma notifyObservers_counting filter number count :
  notifyObservers (main_processor filter) number (counting_store count) =
    Some (counting_store (int_succ count), kept_events number).
Proof.
  unfold notifyObservers, main_processor; cbn [observers_ notify].
  rewrite counting_store_print. cbn [on_number NumberObserver_INumberObserver].
  rewrite lookup_insert_ne by discriminate.
  rewrite counting_store_count. cbn [on_number NumberObserver_INumberObserver].
  now rewrite counting_store_step.
Qed.

Lemma notifyFinished_counting filter count :
  notifyFinished (main_processor filter) (counting_store count) =
    Some (counting_store count, finished_events count).
Proof.
  unfold notifyFinished, main_processor; cbn [observers_ notify].
  rewrite counting_store_print. cbn [on_finished NumberObserver_INumberObserver].
  rewrite lookup_insert_ne by discriminate.
  rewrite counting_store_count. cbn [on_finished NumberObserver_INumberObserver].
  now rewrite counting_store_step.
Qed.

Lemma process_counting filter numbers count :
  0 <= count ->
  count + Z.of_nat (length (List.filter (keep filter) numbers)) <= INT_MAX ->
  process (main_processor filter) numbers (counting_store count) =
    Some (counting_store
            (count + Z.of_nat (length (List.filter (keep filter) numbers))),
          flat_map kept_events (List.filter (keep filter) numbers)).
Proof.
  revert count; induction numbers as [|number rest IH]; intros count H0 Hmax.
  - cbn. now rewrite Z.add_0_r.
  - cbn [process List.filter]. cbn [filter_ main_processor] in *.
    cbn [List.filter] in Hmax.
    destruct (keep filter number).
    + cbn [length] in Hmax. rewrite Nat2Z.inj_succ in Hmax.
      rewrite notifyObservers_counting, int_succ_below by lia.
      rewrite IH by lia. cbn [flat_map length]. rewrite Nat2Z.inj_succ.
      do 3 f_equal. lia.
    + now apply IH.
Qed.

End Counting.

(** X9. What [main] prints when it has a filter and can open the file:
    the warnings of the reader; then, for each number the filter keeps,
    in the order read, one line of the print observer; then the closing
    line of the print observer and the line of the count observer, whose
    count is the number of numbers kept (as long as that fits an
    [int]). *)
Theorem main_output fs program filter_arg filename rest
  filter_type filter_value filter content :
  split_filter_arg filter_arg = Ok (filter_type, filter_value) ->
  createFilter new_FilterFactory filter_type filter_value = Ok filter ->
  fs filename = Some content ->
  let kept := List.filter (keep filter) (omap token_number (extract content)) in
  Z.of_nat (length kept) <= INT_MAX ->
  main fs (program :: filter_arg :: filename :: rest) =
    (Exit 0,
     map Print (omap token_warning (extract content))
     ++ flat_map kept_events kept
     ++ finished_events (Z.of_nat (length kept))).
Proof.
  intros Hsplit Hcreate Hopen kept Hmax.
  rewrite (main_unfold _ _ _ _ _ _ _ Hsplit), Hcreate.
  unfold run, read, FileReader_INumberReader; cbn [reader_ main_processor].
  rewrite (FileReader_read_open _ _ _ Hopen).
  change main_store with (counting_store 0).
  fold (main_processor filter).
  rewrite (process_counting filter _ 0) by (fold kept; lia).
  rewrite notifyFinished_counting. reflexivity.
Qed.

Lemma main_output_witness :
  main sample_fs ["pipeline"; "GT0"; "numbers.txt"] =
    (Exit 0,
     [Print (invalid_number_warning "x")]
     ++ flat_map kept_events [2; 3; 4; 5]
     ++ finished_events 4).
Proof.
  apply (main_output sample_fs "pipeline" "GT0" "numbers.txt" [] "GT" "0"
           (GreaterThanFilter 0) sample_content eq_refl eq_refl eq_refl).
  vm_compute. discriminate.
Defined.

(** X10. [main] always returns, with 0 or with 1: no exception leaves
    it, [substr] included, and it calls no observer that is not
    there. *)
Theorem main_returns fs argv :
  fst (main fs argv) = Exit 0 \/ fst (main fs argv) = Exit 1.
Proof.
  destruct argv as [|program [|filter_arg [|filename rest]]]; [now right .. |].
  destruct (filter_arg_cases filter_arg)
    as [(_ & ty & val & filter & Hsplit & Hcreate)
       | (_ & ty & val & e & Hsplit & Hcreate & Hclass)];
    rewrite (main_unfold _ _ _ _ _ _ _ Hsplit), Hcreate.
  - destruct (main_processor_run fs filename filter)
      as (store' & trace & Hrun & _).
    rewrite Hrun. now left.
  - right. destruct (exn_class e); [reflexivity | reflexivity | congruence].
Qed.

(** X11. Without a usable filter [main] does not touch the file: with
    fewer than two arguments, or a first argument the factory rejects,
    it ends the same way whatever the files are, and writes nothing to
    [cout]. *)
Theorem main_rejects_before_reading fs fs' argv :
  ((length argv < 3)%nat \/ ~ valid_filter_spec (nth 1 argv "")) ->
  main fs argv = main fs' argv /\
  fst (main fs argv) = Exit 1 /\
  forall text, Print (Cout text) ∉ snd (main fs argv).
Proof.
  destruct argv as [|program [|filter_arg [|filename rest]]];
    try (intros _; split; [reflexivity |]; split; [reflexivity |];
         intros text Hin; cbn in Hin;
         repeat (apply elem_of_cons in Hin as [Hin | Hin]; [discriminate |]);
         now apply elem_of_nil in Hin).
  intros [Hlen | Hinvalid]; [cbn in Hlen; lia |]. cbn [nth] in Hinvalid.
  destruct (filter_arg_cases filter_arg)
    as [(Hvalid & _) | (_ & ty & val & e & Hsplit & Hcreate & Hclass)];
    [contradiction |].
  rewrite !(main_unfold _ _ _ _ _ _ _ Hsplit), Hcreate.
  destruct (exn_class e); try congruence;
    (split; [reflexivity |]; split; [reflexivity |];
     intros text Hin; cbn in Hin;
     apply elem_of_cons in Hin as [Hin | Hin]; [discriminate |];
     now apply elem_of_nil in Hin).
Qed.

Lemma main_rejects_before_reading_witness :
  main sample_fs ["pipeline"; "even"; "numbers.txt"]
  = main joined_fs ["pipeline"; "even"; "numbers.txt"].
Proof.
  apply (main_rejects_before_reading sample_fs joined_fs
           ["pipeline"; "even"; "numbers.txt"]).
  right. intros [H | [H | (n & v & H & _)]]; discriminate H.
Defined.

End PipelineExtras.

(** ** Further facts about the logger *)

Module LoggerExtras.
Import LoggerDemo LoggerFacts.

Section Sinks.

Lemma write_keeps_kind env sink msg type :
  sink_of_type type (fst (write env sink msg)) = sink_of_type type sink.
Proof.
  unfold write. destruct sink as [| [] [] pending |]; cbn [fst];
    try reflexivity.
  now destruct (to_file env (pending +:+ msg +:+ nl)) as [[[] kept] out].
Qed.

Lemma state_eta st address sink :
  heap st = {[address := sink]} -> mk_State (logger st) {[address := sink]} = st.
Proof. destruct st; cbn. now intros ->. Qed.

(** [log] calls in a row write to the one sink, one after the other. *)
Lemma steps_logs calls st address sink :
  sink_ (logger st) = Some address -> heap st = {[address := sink]} ->
  steps (map op_log calls) st =
    Some (mk_State (logger st) {[address := fst (write_all address sink calls)]},
          snd (write_all address sink calls)).
Proof.
  revert st sink; induction calls as [|[[env msg] location] calls IH];
    intros st sink Hptr Hheap.
  - cbn. now rewrite (state_eta _ _ _ Hheap).
  - cbn [map op_log steps step write_all].
    unfold log. rewrite Hptr, Hheap, lookup_singleton_eq.
    destruct (write env sink (formatLogMessage msg location)) as [sink' out].
    rewrite insert_singleton_eq. cbv beta iota.
    erewrite (IH _ sink'); [| exact Hptr | reflexivity]. cbn [logger].
    destruct (write_all address sink' calls) as [sink'' out']. reflexivity.
Qed.

Lemma sink_of_type_NONE sink : sink_of_type NONE sink = true -> sink = NullSink.
Proof. destruct sink; [discriminate | discriminate | reflexivity]. Qed.

Lemma sink_of_type_CONSOLE sink :
  sink_of_type CONSOLE sink = true -> sink = ConsoleSink.
Proof. destruct sink; [reflexivity | discriminate | discriminate]. Qed.

Lemma write_all_NullSink address calls :
  fst (write_all address NullSink calls) = NullSink /\
  on_cout (snd (write_all address NullSink calls)) = [] /\
  on_cerr (snd (write_all address NullSink calls)) = [] /\
  appended (snd (write_all address NullSink calls)) = [].
Proof.
  induction calls as [|[[env msg] location] calls IH]; [now cbn |].
  cbn [write_all write]. destruct (write_all address NullSink calls).
  exact IH.
Qed.

Lemma write_all_ConsoleSink address calls :
  fst (write_all address ConsoleSink calls) = ConsoleSink /\
  on_cout (snd (write_all address ConsoleSink calls)) = map log_line calls /\
  on_cerr (snd (write_all address ConsoleSink calls)) = [] /\
  appended (snd (write_all address ConsoleSink calls)) = [].
Proof.
  induction calls as [|[[env msg] location] calls IH]; [now cbn |].
  cbn [write_all write]. destruct (write_all address ConsoleSink calls).
  destruct IH as (IH1 & IH2 & IH3 & IH4). cbn in *.
  now rewrite IH2, IH3, IH4.
Qed.

Lemma log_line_located call : log_line call = located_line call.
Proof.
  destruct call as [[env msg] location]. unfold log_line, located_line,
    formatLogMessage.
  now rewrite !string_app_assoc.
Qed.

Lemma append_located env msg location :
  append_app_log ("" +:+ formatLogMessage msg location +:+ nl)
  = [Append_app_log (located_line (env, msg, location))].
Proof.
  change ("" +:+ formatLogMessage msg location +:+ nl)
    with (log_line (env, msg, location)).
  rewrite log_line_located. reflexivity.
Qed.

(** An open file sink in good state with nothing in its buffer, and the
    file system accepting every write: each line is appended. *)
Lemma write_all_FileSink_good address calls :
  Forall writable calls ->
  fst (write_all address (FileSink true false "") calls) = FileSink true false "" /\
  on_cout (snd (write_all address (FileSink true false "") calls)) = [] /\
  on_cerr (snd (write_all address (FileSink true false "") calls)) = [] /\
  appended (snd (write_all address (FileSink true false "") calls))
    = map located_line calls.
Proof.
  induction 1 as [|[[env msg] location] calls Hw _ IH]; [now cbn |].
  unfold writable in Hw; cbn [fst] in Hw. cbn [write_all write].
  unfold to_file. rewrite Hw, (append_located env).
  destruct (write_all address (FileSink true false "") calls).
  destruct IH as (IH1 & IH2 & IH3 & IH4). cbn [fst snd] in *.
  split; [assumption |].
  unfold on_cout, on_cerr, appended in *. cbn [app omap list_omap map].
  rewrite IH2, IH3, IH4. repeat split.
Qed.

(** A file sink whose file is not open: each call is an error. *)
Lemma write_all_FileSink_closed address failed pending calls :
  fst (write_all address (FileSink false failed pending) calls)
    = FileSink false failed pending /\
  on_cout (snd (write_all address (FileSink false failed pending) calls)) = [] /\
  on_cerr (snd (write_all address (FileSink false failed pending) calls))
    = map (fun _ => "Error: File app.log is not open." +:+ nl) calls /\
  appended (snd (write_all address (FileSink false failed pending) calls)) = [].
Proof.
  induction calls as [|[[env msg] location] calls IH]; [now cbn |].
  cbn [write_all write].
  destruct (write_all address (FileSink false failed pending) calls).
  destruct IH as (IH1 & IH2 & IH3 & IH4). cbn in *.
  now rewrite IH2, IH3, IH4.
Qed.

(** A file sink in fail state: each call is an error and leaves the
    sink, its buffer included, as it is, whatever the file system
    answers. *)
Lemma write_all_FileSink_failed address pending calls :
  fst (write_all address (FileSink true true pending) calls)
    = FileSink true true pending /\
  on_cout (snd (write_all address (FileSink true true pending) calls)) = [] /\
  on_cerr (snd (write_all address (FileSink true true pending) calls))
    = map (fun _ => "Error writing to file app.log." +:+ nl) calls /\
  appended (snd (write_all address (FileSink true true pending) calls)) = [].
Proof.
  induction calls as [|[[env msg] location] calls IH]; [now cbn |].
  cbn [write_all write].
  destruct (write_all address (FileSink true true pending) calls).
  destruct IH as (IH1 & IH2 & IH3 & IH4). cbn in *.
  now rewrite IH2, IH3, IH4.
Qed.

Lemma appends_on_cerr trace : Forall is_append trace -> on_cerr trace = [].
Proof.
  induction 1 as [|e trace He _ IH]; [reflexivity |].
  destruct e; try contradiction. exact IH.
Qed.

Lemma appends_on_cout trace : Forall is_append trace -> on_cout trace = [].
Proof.
  induction 1 as [|e trace He _ IH]; [reflexivity |].
  destruct e; try contradiction. exact IH.
Qed.

End Sinks.

Section Reachable.

Lemma singleton_sink_eq (a : nat) (s1 s2 : LogSink) :
  ({[a := s1]} : gmap nat LogSink) = {[a := s2]} -> s1 = s2.
Proof.
  intros Heq. apply (f_equal (fun m => m !! a)) in Heq.
  rewrite !lookup_singleton_eq in Heq. congruence.
Qed.

(** In every state of the logger the recorded kind is the kind of the
    one sink it owns. *)
Lemma reachable_kind st :
  reachable st ->
  exists address sink,
    sink_ (logger st) = Some address /\ heap st = {[address := sink]} /\
    sink_of_type (current_sink_type_ (logger st)) sink = true.
Proof.
  induction 1 as [| op st st' out Hreach IH Hstep].
  - eexists _, ConsoleSink. repeat split.
  - destruct IH as (address & sink & Hptr & Hheap & Hkind).
    pose proof (reachable_owns_one_sink st Hreach) as Hown.
    destruct op as [env type | env msg location]; cbn [step] in Hstep.
    + destruct (decide (recognized type)) as [Hrec | Hno].
      * destruct (set_sink_recognized env type st Hown Hrec)
          as (st1 & trace & old & new & sink1 & Hs & _ & Hl & Hh & _ & Hk & _).
        rewrite Hs in Hstep. injection Hstep as <- _.
        exists new, sink1. rewrite Hl. auto.
      * rewrite (set_sink_unrecognized env type st Hno) in Hstep.
        injection Hstep as <- _. eauto.
    + destruct (log_owned env msg location st Hown)
        as (address0 & sink0 & Hptr0 & Hheap0 & Hlog).
      rewrite Hlog in Hstep. injection Hstep as <- _.
      assert (address0 = address) as -> by congruence.
      assert (sink0 = sink) as ->
        by (apply (singleton_sink_eq address); congruence).
      eexists address, _. cbn [logger heap].
      split; [assumption |]. split; [reflexivity |].
      now rewrite write_keeps_kind.
Qed.

Lemma owned_sink_singleton st address sink :
  sink_ (logger st) = Some address -> heap st = {[address := sink]} ->
  owned_sink st = Some sink.
Proof.
  intros Hptr Hheap. unfold owned_sink.
  now rewrite Hptr, Hheap, lookup_singleton_eq.
Qed.

Lemma on_cout_app t1 t2 : on_cout (t1 ++ t2) = on_cout t1 ++ on_cout t2.
Proof. apply omap_app. Qed.

Lemma on_cerr_app t1 t2 : on_cerr (t1 ++ t2) = on_cerr t1 ++ on_cerr t2.
Proof. apply omap_app. Qed.

Lemma appended_app t1 t2 : appended (t1 ++ t2) = appended t1 ++ appended t2.
Proof. apply omap_app. Qed.

(** [set_sink (FILE)]: the sink installed is the one the constructor
    built, and the trace is what the constructor printed, the exchange
    of the sinks, what closing the previous sink sends to the file, and
    the notice. *)
Lemma set_sink_FILE env st :
  owns_one_sink st ->
  exists old new previous,
    set_sink env FILE st =
      Some (mk_State (mk_Logger (Some new) FILE) {[new := fst (new_FileSink env)]},
            snd (new_FileSink env)
            ++ ([Construct new; Destroy old] ++ delete_sink env previous)
            ++ [Cout ("Logging redirected to file app.log." +:+ nl)]).
Proof.
  intros Hown. unfold set_sink. cbn [Z.eqb FILE CONSOLE].
  destruct (new_FileSink env) as [sink built]. cbn [fst snd].
  destruct (assign_sink_owned env sink FILE st Hown)
    as (old & new & previous & Ha & _).
  rewrite Ha. eauto.
Qed.

(** What [set_sink (FILE)] writes to [cerr]: what the constructor of
    the new sink did. *)
Lemma set_sink_FILE_cerr env new old previous :
  on_cerr (snd (new_FileSink env)
           ++ ([Construct new; Destroy old] ++ delete_sink env previous)
           ++ [Cout ("Logging redirected to file app.log." +:+ nl)])
  = on_cerr (snd (new_FileSink env)).
Proof.
  rewrite !on_cerr_app.
  rewrite (appends_on_cerr _ (delete_sink_appends env previous)).
  cbn. now rewrite app_nil_r.
Qed.

End Reachable.

(** X12. [get_current_sink_type] tells the truth: in every state of the
    logger the kind it returns is the kind of the sink installed, also
    after a [set_sink] with an unknown value and after writes that
    failed. *)
Theorem current_sink_type_agrees st :
  reachable st ->
  exists sink,
    owned_sink st = Some sink /\
    sink_of_type (get_current_sink_type st) sink = true.
Proof.
  intros (address & sink & Hptr & Hheap & Hkind)%reachable_kind.
  exists sink. split; [| exact Hkind].
  now apply (owned_sink_singleton st address).
Qed.

Lemma current_sink_type_agrees_witness :
  exists sink,
    owned_sink (fst new_Logger) = Some sink /\
    sink_of_type (get_current_sink_type (fst new_Logger)) sink = true.
Proof. exact (current_sink_type_agrees (fst new_Logger) reachable_new). Defined.

(** X13. While the kind is NONE, [log] calls change nothing and write
    nothing: no text reaches [cout], [cerr] or [app.log]. *)
Theorem log_discarded st calls :
  reachable st -> get_current_sink_type st = NONE ->
  exists trace,
    steps (map op_log calls) st = Some (st, trace) /\
    on_cout trace = [] /\ on_cerr trace = [] /\ appended trace = [].
Proof.
  intros (address & sink & Hptr & Hheap & Hkind)%reachable_kind Htype.
  unfold get_current_sink_type in Htype. rewrite Htype in Hkind.
  apply sink_of_type_NONE in Hkind; subst sink.
  rewrite (steps_logs calls st address NullSink Hptr Hheap).
  destruct (write_all_NullSink address calls) as (Hs & Ho & He & Ha).
  rewrite Hs, (state_eta _ _ _ Hheap). eauto.
Qed.

(** X14. While the kind is CONSOLE, each [log] call writes its line to
    [cout]: an opening bracket, the file name, a colon, the function
    name, a colon, the line number in decimal, a closing bracket and a
    space, the message, and a line feed. The lines come in the order of
    the calls, and nothing goes to [cerr] or to [app.log]. *)
Theorem log_to_console st calls :
  reachable st -> get_current_sink_type st = CONSOLE ->
  exists trace,
    steps (map op_log calls) st = Some (st, trace) /\
    on_cout trace =
      map (fun call : log_call =>
             let '(_, msg, location) := call in
             "[" +:+ file_name location +:+ ":" +:+ function_name location +:+ ":"
             +:+ to_string (Z.of_N (line location)) +:+ "] " +:+ msg +:+ nl)
        calls /\
    on_cerr trace = [] /\ appended trace = [].
Proof.
  intros (address & sink & Hptr & Hheap & Hkind)%reachable_kind Htype.
  unfold get_current_sink_type in Htype. rewrite Htype in Hkind.
  apply sink_of_type_CONSOLE in Hkind; subst sink.
  rewrite (steps_logs calls st address ConsoleSink Hptr Hheap).
  destruct (write_all_ConsoleSink address calls) as (Hs & Ho & He & Ha).
  rewrite Hs, (state_eta _ _ _ Hheap).
  eexists. split; [reflexivity |]. split; [| split; assumption].
  rewrite Ho. apply map_ext. intros call. apply log_line_located.
Qed.

(** X15. A [set_sink (FILE)] that can open [app.log] installs a file
    sink in good state with an empty buffer and writes nothing to
    [cerr]. From there, as long as the writes succeed, each [log] call
    appends to the file exactly its line (bracket, file name, colon,
    function name, colon, line number, bracket and space, message, line
    feed), in the order of the calls, leaves the sink as it is, and
    nothing goes to [cerr] or [cout]. *)
Theorem file_sink_appends st env calls :
  reachable st -> can_open env = true -> Forall writable calls ->
  exists st1 opening trace,
    set_sink env FILE st = Some (st1, opening) /\
    owned_sink st1 = Some (FileSink true false "") /\
    get_current_sink_type st1 = FILE /\
    on_cerr opening = [] /\
    steps (map op_log calls) st1 = Some (st1, trace) /\
    appended trace =
      map (fun call : log_call =>
             let '(_, msg, location) := call in
             "[" +:+ file_name location +:+ ":" +:+ function_name location +:+ ":"
             +:+ to_string (Z.of_N (line location)) +:+ "] " +:+ msg +:+ nl)
        calls /\
    on_cerr trace = [] /\ on_cout trace = [].
Proof.
  intros Hown%reachable_owns_one_sink Hopen Hcalls.
  destruct (set_sink_FILE env st Hown) as (old & new & previous & Hset).
  pose proof (set_sink_FILE_cerr env new old previous) as Hcerr.
  unfold new_FileSink in Hset, Hcerr. rewrite Hopen in Hset, Hcerr.
  cbn [fst snd] in Hset, Hcerr.
  destruct (write_all_FileSink_good new calls Hcalls) as (Hs & Ho & He & Ha).
  do 3 eexists. split; [exact Hset |].
  split; [apply (owned_sink_singleton _ new); reflexivity |].
  split; [reflexivity |]. split; [exact Hcerr |].
  erewrite steps_logs by reflexivity. cbn [logger]. rewrite Hs.
  split; [reflexivity |]. auto.
Qed.

(** X16. A [set_sink (FILE)] that cannot open [app.log] reports it once
    on [cerr] and installs a sink without a file. From there every
    [log] call reports that the file is not open, appends nothing and
    leaves the sink as it is, whatever the file system answers; and the
    destruction of that sink at the end of the process sends nothing to
    the file either. *)
Theorem file_sink_not_open st env calls :
  reachable st -> can_open env = false ->
  exists st1 opening trace,
    set_sink env FILE st = Some (st1, opening) /\
    owned_sink st1 = Some (FileSink false true "") /\
    on_cerr opening = ["Error opening file app.log for writing." +:+ nl] /\
    steps (map op_log calls) st1 = Some (st1, trace) /\
    appended trace = [] /\
    on_cerr trace = map (fun _ => "Error: File app.log is not open." +:+ nl) calls /\
    forall env', appended (at_exit env' (Some st1)) = [].
Proof.
  intros Hown%reachable_owns_one_sink Hopen.
  destruct (set_sink_FILE env st Hown) as (old & new & previous & Hset).
  pose proof (set_sink_FILE_cerr env new old previous) as Hcerr.
  unfold new_FileSink in Hset, Hcerr. rewrite Hopen in Hset, Hcerr.
  cbn [fst snd] in Hset, Hcerr.
  destruct (write_all_FileSink_closed new true "" calls) as (Hs & Ho & He & Ha).
  do 3 eexists. split; [exact Hset |].
  split; [apply (owned_sink_singleton _ new); reflexivity |].
  split; [exact Hcerr |].
  erewrite steps_logs by reflexivity. cbn [logger]. rewrite Hs.
  split; [reflexivity |]. split; [assumption |]. split; [assumption |].
  intros env'. cbn [at_exit logger sink_ heap].
  now rewrite lookup_singleton_eq.
Qed.

(** X17. A [log] call whose write to [app.log] is refused reports a
    write error and leaves the file sink in fail state; which part of
    the line has reached the file, and which part stays in the buffer
    of the stream, is not decided by the program. Every later [log]
    call through the same sink reports a write error, appends nothing
    and leaves the sink, its buffer included, as it is, also when the
    file system would accept the write again: the lines of those later
    calls neither reach the file nor its buffer. *)
Theorem file_sink_failure_persists st env first calls :
  reachable st -> can_open env = true -> ~ writable first ->
  exists st1 opening st2 refused trace,
    set_sink env FILE st = Some (st1, opening) /\
    step (op_log first) st1 = Some (st2, refused) /\
    owned_sink st2 =
      Some (FileSink true true
              (snd (on_failure (fst (fst first)) (located_line first)))) /\
    appended refused =
      appended (append_app_log
                  (fst (on_failure (fst (fst first)) (located_line first)))) /\
    on_cerr refused = ["Error writing to file app.log." +:+ nl] /\
    steps (map op_log calls) st2 = Some (st2, trace) /\
    appended trace = [] /\
    on_cerr trace = map (fun _ => "Error writing to file app.log." +:+ nl) calls.
Proof.
  intros Hown%reachable_owns_one_sink Hopen Hfirst.
  destruct (set_sink_FILE env st Hown) as (old & new & previous & Hset).
  unfold new_FileSink in Hset. rewrite Hopen in Hset. cbn [fst snd] in Hset.
  destruct first as [[env1 msg] location]. unfold writable in Hfirst.
  cbn [fst] in Hfirst. apply not_true_is_false in Hfirst.
  pose proof (log_line_located (env1, msg, location)) as Hline.
  unfold log_line in Hline. cbn [fst].
  destruct (on_failure env1 (located_line (env1, msg, location)))
    as [written kept] eqn:Hfail.
  cbn [fst snd].
  assert (Hstep :
    step (op_log (env1, msg, location))
      (mk_State (mk_Logger (Some new) FILE) {[new := FileSink true false ""]}) =
    Some (mk_State (mk_Logger (Some new) FILE) {[new := FileSink true true kept]},
          Call_write new (formatLogMessage msg location)
          :: append_app_log written
             ++ [Cerr ("Error writing to file app.log." +:+ nl)])).
  { cbn [op_log step]. unfold log. cbn [logger sink_ heap].
    rewrite lookup_singleton_eq. cbn [write]. unfold to_file. rewrite Hfirst.
    change ("" +:+ formatLogMessage msg location +:+ nl)
      with (formatLogMessage msg location +:+ nl).
    rewrite Hline, Hfail. now rewrite insert_singleton_eq. }
  pose proof (to_file_appends (mk_Environment true true (on_failure env1)) written)
    as Happ. unfold to_file in Happ. cbn [can_write snd] in Happ.
  do 5 eexists. split; [exact Hset |]. split; [exact Hstep |].
  split; [apply (owned_sink_singleton _ new); reflexivity |].
  split; [| split].
  - unfold appended. cbn [omap list_omap]. rewrite !omap_app. cbn.
    now rewrite app_nil_r.
  - change (Call_write new (formatLogMessage msg location)
            :: append_app_log written
               ++ [Cerr ("Error writing to file app.log." +:+ nl)])
      with ([Call_write new (formatLogMessage msg location)]
            ++ append_app_log written
            ++ [Cerr ("Error writing to file app.log." +:+ nl)]).
    rewrite !on_cerr_app, (appends_on_cerr _ Happ). reflexivity.
  - erewrite steps_logs by reflexivity. cbn [logger].
    destruct (write_all_FileSink_failed new kept calls) as (Hs & Ho & He & Ha).
    rewrite Hs. split; [reflexivity |]. auto.
Qed.

Lemma sample_state_none_reachable : reachable sample_state_none.
Proof.
  eapply (reachable_step (Op_set_sink sample_env NONE) (fst new_Logger));
    [apply reachable_new | reflexivity].
Qed.

Lemma log_discarded_witness :
  exists trace,
    steps (map op_log sample_calls) sample_state_none
      = Some (sample_state_none, trace) /\
    on_cout trace = [] /\ on_cerr trace = [] /\ appended trace = [].
Proof.
  exact (log_discarded sample_state_none sample_calls
           sample_state_none_reachable eq_refl).
Defined.

Lemma log_to_console_witness :
  exists trace,
    steps (map op_log sample_calls) (fst new_Logger) = Some (fst new_Logger, trace) /\
    on_cout trace =
      ["[main.cpp:main:136] First test message." +:+ nl;
       "[main.cpp:main:137] Second test message." +:+ nl] /\
    on_cerr trace = [] /\ appended trace = [].
Proof.
  exact (log_to_console (fst new_Logger) sample_calls reachable_new eq_refl).
Defined.

Lemma file_sink_appends_witness :
  exists st1 opening trace,
    set_sink sample_env FILE (fst new_Logger) = Some (st1, opening) /\
    owned_sink st1 = Some (FileSink true false "") /\
    get_current_sink_type st1 = FILE /\
    on_cerr opening = [] /\
    steps (map op_log sample_calls) st1 = Some (st1, trace) /\
    appended trace =
      ["[main.cpp:main:136] First test message." +:+ nl;
       "[main.cpp:main:137] Second test message." +:+ nl] /\
    on_cerr trace = [] /\ on_cout trace = [].
Proof.
  apply (file_sink_appends (fst new_Logger) sample_env sample_calls reachable_new
           eq_refl).
  repeat constructor.
Defined.

Lemma file_sink_not_open_witness :
  exists st1 opening trace,
    set_sink (mk_Environment false true (fun text => ("", text))) FILE
      (fst new_Logger) = Some (st1, opening) /\
    owned_sink st1 = Some (FileSink false true "") /\
    on_cerr opening = ["Error opening file app.log for writing." +:+ nl] /\
    steps (map op_log sample_calls) st1 = Some (st1, trace) /\
    appended trace = [] /\
    on_cerr trace =
      map (fun _ => "Error: File app.log is not open." +:+ nl) sample_calls /\
    forall env', appended (at_exit env' (Some st1)) = [].
Proof.
  exact (file_sink_not_open (fst new_Logger)
           (mk_Environment false true (fun text => ("", text)))
           sample_calls reachable_new eq_refl).
Defined.

Lemma file_sink_failure_persists_witness :
  exists st1 opening st2 refused trace,
    set_sink sample_env FILE (fst new_Logger) = Some (st1, opening) /\
    step (op_log refused_call) st1 = Some (st2, refused) /\
    owned_sink st2 =
      Some (FileSink true true ("[main.cpp:main:139] Message to file." +:+ nl)) /\
    appended refused = ["[main"] /\
    on_cerr refused = ["Error writing to file app.log." +:+ nl] /\
    steps (map op_log sample_calls) st2 = Some (st2, trace) /\
    appended trace = [] /\
    on_cerr trace =
      map (fun _ => "Error writing to file app.log." +:+ nl) sample_calls.
Proof.
  apply (file_sink_failure_persists (fst new_Logger) sample_env refused_call
           sample_calls reachable_new eq_refl).
  unfold writable, refused_call. cbn. discriminate.
Defined.

(** *** [parseSinkType] *)

Section Parse.

Ltac letter_by_cases :=
  let c := fresh "c" in
  let H := fresh "H" in
  intros c; unfold letter; destruct c as [[] [] [] [] [] [] [] []]; vm_compute;
  split; intros H; try discriminate H; auto;
  destruct H as [H | H]; discriminate H.

Lemma case_pairs_file : case_pairs "file" "FILE".
Proof. cbn [case_pairs]. repeat (split; [letter_by_cases |]). exact I. Qed.

Lemma case_pairs_none : case_pairs "none" "NONE".
Proof. cbn [case_pairs]. repeat (split; [letter_by_cases |]). exact I. Qed.

Lemma case_pairs_console : case_pairs "console" "CONSOLE".
Proof. cbn [case_pairs]. repeat (split; [letter_by_cases |]). exact I. Qed.

(** Lower-casing gives a word exactly for its spellings in any mix of
    cases. *)
Lemma transform_tolower_word lower upper arg :
  case_pairs lower upper ->
  transform_tolower arg = lower <-> in_any_case lower upper arg.
Proof.
  revert upper arg; induction lower as [|l lower IH]; intros upper arg Hpairs.
  - destruct upper; [| contradiction].
    destruct arg; cbn; split; intros H; try discriminate H; auto; contradiction.
  - destruct upper as [|u upper]; [contradiction |].
    destruct Hpairs as [Hl Hpairs].
    destruct arg as [|c arg]; cbn [transform_tolower in_any_case].
    + split; [discriminate | contradiction].
    + rewrite <- (IH upper arg Hpairs), <- Hl. split.
      * intros [= H1 H2]. auto.
      * intros [H1 H2]. congruence.
Qed.

End Parse.

(** X18. [parseSinkType] ignores case and knows three words: it returns
    FILE exactly for the spellings of "file" and NONE exactly for those
    of "none", in any mix of upper and lower case, and CONSOLE for
    everything else, "console" included. It never returns a value that
    [set_sink] does not recognize. *)
Theorem parseSinkType_cases (arg : string) :
  (parseSinkType arg = FILE <-> in_any_case "file" "FILE" arg) /\
  (parseSinkType arg = NONE <-> in_any_case "none" "NONE" arg) /\
  (parseSinkType arg = CONSOLE <->
   ~ in_any_case "file" "FILE" arg /\ ~ in_any_case "none" "NONE" arg) /\
  (in_any_case "console" "CONSOLE" arg -> parseSinkType arg = CONSOLE) /\
  recognized (parseSinkType arg).
Proof.
  rewrite <- !(transform_tolower_word _ _ arg case_pairs_file).
  rewrite <- !(transform_tolower_word _ _ arg case_pairs_none).
  rewrite <- !(transform_tolower_word _ _ arg case_pairs_console).
  unfold parseSinkType, recognized.
  destruct (String.eqb_spec (transform_tolower arg) "console") as [-> | H1];
    [repeat split; try discriminate; auto; intros [? ?]; auto |].
  destruct (String.eqb_spec (transform_tolower arg) "file") as [-> | H2];
    [repeat split; try discriminate; auto; intros [? ?]; congruence |].
  destruct (String.eqb_spec (transform_tolower arg) "none") as [-> | H3];
    [repeat split; try discriminate; auto; intros [? ?]; congruence |].
  repeat split; try discriminate; auto; try contradiction; congruence.
Qed.

(** *** The one logger of the process *)

Section Instance.

Lemma call_instance_all_constructed ops st :
  call_instance_all ops (Some st) =
    match steps ops st with
    | Some (st', trace) => Some (Some st', trace)
    | None => None
    end.
Proof.
  revert st; induction ops as [|op ops IH]; intros st; [reflexivity |].
  cbn [call_instance_all steps]. unfold call_instance. cbn [instance].
  destruct (step op st) as [[st1 out]|]; [| reflexivity].
  rewrite IH. cbn [app]. now destruct (steps ops st1) as [[st2 out']|].
Qed.

Lemma constructed_object_events trace :
  constructed (object_events trace) = constructed trace.
Proof.
  induction trace as [|e trace IH]; [reflexivity |].
  destruct e; cbn; try exact IH; f_equal; exact IH.
Qed.

Lemma destroyed_object_events trace :
  destroyed (object_events trace) = destroyed trace.
Proof.
  induction trace as [|e trace IH]; [reflexivity |].
  destruct e; cbn; try exact IH; f_equal; exact IH.
Qed.

(** Over any calls, the sinks constructed are those destroyed, but for
    the one owned first and the one owned last. *)
Lemma steps_sinks ops st first :
  owns_one_sink st -> sink_ (logger st) = Some first ->
  exists st' trace last,
    steps ops st = Some (st', trace) /\
    owns_one_sink st' /\ sink_ (logger st') = Some last /\
    first :: constructed trace = destroyed trace ++ [last].
Proof.
  revert st first; induction ops as [|op ops IH]; intros st first Hown Hptr.
  - exists st, [], first. auto.
  - assert (Hstep : exists st1 out next,
              step op st = Some (st1, out) /\ owns_one_sink st1 /\
              sink_ (logger st1) = Some next /\
              first :: constructed out = destroyed out ++ [next]).
    { destruct op as [env type | env msg location]; cbn [step].
      - destruct (decide (recognized type)) as [Hrec | Hno].
        + destruct (set_sink_recognized env type st Hown Hrec)
            as (st1 & out & old & new & sink & Hs & Hold & Hl & Hh & _ & _ & Ho & _).
          exists st1, out, new. split; [assumption |].
          split; [exists new, sink; rewrite Hl; auto |].
          split; [now rewrite Hl |].
          rewrite <- constructed_object_events, <- destroyed_object_events, Ho.
          cbn. congruence.
        + rewrite (set_sink_unrecognized env type st Hno).
          exists st, [Cerr ("Unknown sink type. Previous sink remains." +:+ nl)], first.
          auto.
      - destruct (log_owned env msg location st Hown)
          as (address & sink & Hptr' & Hheap & Hlog).
        rewrite Hlog. do 2 eexists. exists first.
        split; [reflexivity |].
        split; [eexists address, _; cbn [logger heap]; auto |].
        split; [exact Hptr |].
        rewrite <- constructed_object_events, <- destroyed_object_events.
        change (Call_write address (formatLogMessage msg location)
                :: snd (write env sink (formatLogMessage msg location)))
          with ([Call_write address (formatLogMessage msg location)]
                ++ snd (write env sink (formatLogMessage msg location))).
        now rewrite object_events_app, object_events_write. }
    destruct Hstep as (st1 & out & next & Hs & Hown1 & Hptr1 & Hout).
    destruct (IH st1 next Hown1 Hptr1) as (st2 & trace & last & Hss & Hown2 & Hptr2 & Htrace).
    exists st2, (out ++ trace), last. cbn [steps]. rewrite Hs, Hss.
    split; [reflexivity |]. split; [assumption |]. split; [assumption |].
    unfold constructed, destroyed in *. rewrite !omap_app.
    rewrite app_comm_cons, Hout, <- !app_assoc. cbn [app].
    now rewrite Htrace.
Qed.

Lemma constructed_app t1 t2 : constructed (t1 ++ t2) = constructed t1 ++ constructed t2.
Proof. apply omap_app. Qed.

Lemma destroyed_app t1 t2 : destroyed (t1 ++ t2) = destroyed t1 ++ destroyed t2.
Proof. apply omap_app. Qed.

End Instance.

Lemma call_instance_all_first op ops :
  call_instance_all (op :: ops) None =
    match steps (op :: ops) (fst new_Logger) with
    | Some (st, trace) => Some (Some st, snd new_Logger ++ trace)
    | None => None
    end.
Proof.
  cbn [call_instance_all steps]. unfold call_instance. cbn [instance].
  destruct new_Logger as [st0 built]. cbn [fst snd].
  destruct (step op st0) as [[st1 out]|]; [| reflexivity].
  rewrite call_instance_all_constructed.
  destruct (steps ops st1) as [[st2 out']|]; [| reflexivity].
  now rewrite app_assoc.
Qed.

Lemma appends_constructed trace : Forall is_append trace -> constructed trace = [].
Proof.
  induction 1 as [|e trace He _ IH]; [reflexivity |].
  destruct e; try contradiction. exact IH.
Qed.

Lemma appends_destroyed trace : Forall is_append trace -> destroyed trace = [].
Proof.
  induction 1 as [|e trace He _ IH]; [reflexivity |].
  destruct e; try contradiction. exact IH.
Qed.

(** The end of the process destroys the sink owned last, and no
    other. *)
Lemma at_exit_sinks env st last :
  sink_ (logger st) = Some last ->
  constructed (at_exit env (Some st)) = [] /\
  destroyed (at_exit env (Some st)) = [last].
Proof.
  intros Hptr. cbn [at_exit]. rewrite Hptr.
  assert (Hclose : Forall is_append
            match heap st !! last with
            | Some sink => delete_sink env sink
            | None => []
            end)
    by (destruct (heap st !! last); [apply delete_sink_appends | constructor]).
  split.
  - change (constructed (Destroy last :: ?t)) with (constructed t).
    now apply appends_constructed.
  - change (destroyed (Destroy last :: ?t)) with (last :: destroyed t).
    now rewrite appends_destroyed.
Qed.

(** X20. No sink leaks, whatever the calls: from the construction of
    the logger to the end of the process, the sinks destroyed are
    the sinks constructed, in the same order. *)
Theorem sinks_all_destroyed ops env :
  exists st trace,
    steps ops (fst new_Logger) = Some (st, trace) /\
    constructed (snd new_Logger ++ trace ++ at_exit env (Some st)) =
    destroyed (snd new_Logger ++ trace ++ at_exit env (Some st)).
Proof.
  destruct (steps_sinks ops (fst new_Logger) 0%nat new_Logger_owns_one_sink eq_refl)
    as (st & trace & last & Hsteps & _ & Hptr & Htrace).
  exists st, trace. split; [assumption |].
  rewrite !constructed_app, !destroyed_app.
  destruct (at_exit_sinks env st last Hptr) as [-> ->].
  change (constructed (snd new_Logger)) with [0%nat].
  change (destroyed (snd new_Logger)) with (@nil nat).
  rewrite app_nil_r. cbn [app]. exact Htrace.
Qed.

(** *** [main] *)

Section LoggerMain.

Lemma main_sink_type_recognized argv : recognized (main_sink_type argv).
Proof.
  unfold main_sink_type, recognized.
  destruct argv as [|program [|arg rest]]; [now left | now left |].
  unfold parseSinkType.
  destruct (String.eqb (transform_tolower arg) "console"); [now left |].
  destruct (String.eqb (transform_tolower arg) "file"); [now right; left |].
  destruct (String.eqb (transform_tolower arg) "none"); [now right; right |].
  now left.
Qed.

(** [main] is its calls on the one logger, between what it says first
    and its last line, and then the end of the process. *)
Lemma main_steps file function envs argv :
  main file function envs argv =
    match steps (main_calls file function envs (main_sink_type argv))
            (fst new_Logger) with
    | Some (st, trace) =>
        Some (0, main_said argv ++ (snd new_Logger ++ trace)
                 ++ [Cout ("Program finished." +:+ nl)]
                 ++ at_exit (envs 9%nat) (Some st))
    | None => None
    end.
Proof.
  unfold main.
  assert (Hcalls : forall sink_type,
            call_instance_all (main_calls file function envs sink_type) None =
            match steps (main_calls file function envs sink_type) (fst new_Logger) with
            | Some (st, trace) => Some (Some st, snd new_Logger ++ trace)
            | None => None
            end) by (intros; apply call_instance_all_first).
  destruct argv as [|program [|arg rest]]; cbn [main_sink_type main_said];
    rewrite Hcalls;
    match goal with
    | |- context [steps ?ops ?st] => destruct (steps ops st) as [[st' trace]|]
    end; reflexivity.
Qed.

End LoggerMain.

(** X21. [main] always returns 0, and by the end of the process every
    sink it constructed has been destroyed, in the order of
    construction, whatever its argument is and whatever the file system
    answers. *)
Theorem logger_main_returns file function envs argv :
  exists trace,
    main file function envs argv = Some (0, trace) /\
    constructed trace = destroyed trace.
Proof.
  rewrite main_steps.
  destruct (steps_sinks (main_calls file function envs (main_sink_type argv))
              (fst new_Logger) 0%nat new_Logger_owns_one_sink eq_refl)
    as (st & trace & last & Hsteps & _ & Hptr & Htrace).
  rewrite Hsteps. eexists. split; [reflexivity |].
  rewrite !constructed_app, !destroyed_app.
  destruct (at_exit_sinks (envs 9%nat) st last Hptr) as [-> ->].
  assert (Hsaid : constructed (main_said argv) = [] /\ destroyed (main_said argv) = [])
    by (destruct argv as [|program [|arg rest]]; split; reflexivity).
  destruct Hsaid as [-> ->].
  change (constructed (snd new_Logger)) with [0%nat].
  change (destroyed (snd new_Logger)) with (@nil nat).
  cbn [constructed destroyed omap list_omap app]. rewrite !app_nil_r.
  exact Htrace.
Qed.

(** X22. With a file system that accepts everything, [main] appends to
    [app.log] the message of line 139, preceded by the two first
    messages when its argument chose the file sink, and nothing else.
    The two first messages go to [cout] when the first sink is the
    console and nowhere when it is NONE; the message of line 141
    reaches neither [cout] nor the file, and [cerr] stays empty. *)
Theorem logger_main_app_log file function envs argv :
  (forall n, envs n = sample_env) ->
  exists trace,
    main file function envs argv = Some (0, trace) /\
    appended trace = main_app_log file function (main_sink_type argv) /\
    on_cout trace =
      on_cout (main_said argv) ++ main_cout file function (main_sink_type argv) /\
    on_cerr trace = [].
Proof.
  intros Henv. rewrite main_steps. unfold main_calls. rewrite !Henv.
  assert (Hsaid : appended (main_said argv) = [] /\ on_cerr (main_said argv) = [])
    by (destruct argv as [|program [|arg rest]]; split; reflexivity).
  destruct Hsaid as [Ha He].
  destruct (main_sink_type_recognized argv) as [-> | [-> | ->]];
    match goal with
    | |- context [steps ?ops ?st] =>
        let r := fresh "r" in
        set (r := steps ops st); vm_compute in r; subst r
    end;
    cbv beta iota; (eexists; split; [reflexivity |]);
    rewrite appended_app, on_cerr_app, on_cout_app, Ha, He;
    (split; [vm_compute; reflexivity |]);
    (split; [f_equal; vm_compute; reflexivity | vm_compute; reflexivity]).
Qed.

Lemma logger_main_app_log_witness :
  exists trace,
    main "main.cpp" "main" (fun _ => sample_env) ["logger"; "File"] = Some (0, trace) /\
    appended trace = main_app_log "main.cpp" "main" FILE /\
    on_cout trace =
      on_cout (main_said ["logger"; "File"]) ++ main_cout "main.cpp" "main" FILE /\
    on_cerr trace = [].
Proof.
  exact (logger_main_app_log "main.cpp" "main" (fun _ => sample_env)
           ["logger"; "File"] (fun _ => eq_refl)).
Defined.

End LoggerExtras.
